(** * md2overleaf: the export pipeline of [src/main.ts]

    A shallow embedding of the Obsidian plugin's [exportToOverleaf]
    command: the JavaScript string and regular-expression operations it
    relies on, the effects it performs (file system, subprocesses,
    notices) as a small free monad, and the pipeline itself, followed by
    the properties of the specification that can be settled on it. *)

From Stdlib Require Import String Ascii.
From Stdlib Require Import List NArith Arith Bool Lia.
From ExtLib Require Import Structures.Monad Structures.MonadExc.
Import ListNotations.
Import MonadNotation.

Set Implicit Arguments.
Local Open Scope N_scope.
Local Open Scope list_scope.

(* ===================================================================== *)
(** * Part I: definitions *)
(* ===================================================================== *)

(** ** JavaScript strings

    A JavaScript string is a sequence of UTF-16 code units; regular
    expressions without the [u] flag work on code units too. *)

Definition char : Type := N.
Definition str : Type := list char.

(** Literals of the source, written as Rocq strings (ASCII only). *)
Definition lit (s : String.string) : str :=
  map Ascii.N_of_ascii (String.list_ascii_of_string s).
Arguments lit s%_string.

(** The double quote, code unit 34. *)
Definition dq : str := [34].

Fixpoint str_eqb (a b : str) : bool :=
  match a, b with
  | [], [] => true
  | x :: a', y :: b' => (x =? y) && str_eqb a' b'
  | _, _ => false
  end.

(** [\s], and what [String.prototype.trim] strips: WhiteSpace and
    LineTerminator of ECMAScript. *)
Definition is_space (c : char) : bool :=
  ((9 <=? c) && (c <=? 13)) || (c =? 32) || (c =? 160) || (c =? 5760)
  || ((8192 <=? c) && (c <=? 8202)) || (c =? 8232) || (c =? 8233)
  || (c =? 8239) || (c =? 8287) || (c =? 12288) || (c =? 65279).

Definition not_space (c : char) : bool := negb (is_space c).

Fixpoint trim_start (s : str) : str :=
  match s with
  | c :: s' => if is_space c then trim_start s' else s
  | [] => []
  end.

Definition trim (s : str) : str := rev (trim_start (rev (trim_start s))).

(** [strip_prefix p s] is [Some rest] when [s = p ++ rest]. *)
Fixpoint strip_prefix (p s : str) : option str :=
  match p, s with
  | [], _ => Some s
  | x :: p', y :: s' => if x =? y then strip_prefix p' s' else None
  | _ :: _, [] => None
  end.

Definition starts_with (p s : str) : bool :=
  match strip_prefix p s with Some _ => true | None => false end.

(** First occurrence of [pat] in [s] ([StringIndexOf] from position 0):
    the text before it and the text after it. *)
Fixpoint split_at_first (pat s : str) : option (str * str) :=
  match strip_prefix pat s with
  | Some rest => Some ([], rest)
  | None =>
      match s with
      | [] => None
      | x :: s' =>
          match split_at_first pat s' with
          | Some (b, a) => Some (x :: b, a)
          | None => None
          end
      end
  end.

Definition includes (s pat : str) : bool :=
  match split_at_first pat s with Some _ => true | None => false end.

(** [GetSubstitution] of ECMAScript for a replacement template, when the
    pattern has no capture group (every template replacement of the
    source is of that kind: a string pattern, or a regular expression
    without groups).  [$$] gives a dollar, [$&] the match, [$`] the text
    before it, [$'] the text after it; a dollar followed by anything
    else, digits included, stays as it is. *)
Fixpoint get_substitution (matched before after templ : str) : str :=
  match templ with
  | [] => []
  | c :: t =>
      if c =? 36 then
        match t with
        | d :: t' =>
            if d =? 36 then 36 :: get_substitution matched before after t'
            else if d =? 38 then matched ++ get_substitution matched before after t'
            else if d =? 96 then before ++ get_substitution matched before after t'
            else if d =? 39 then after ++ get_substitution matched before after t'
            else c :: get_substitution matched before after t
        | [] => [c]
        end
      else c :: get_substitution matched before after t
  end.

(** [s.replace(pat, templ)] with a string pattern and a string
    replacement: the first occurrence only, the replacement expanded by
    [get_substitution]. *)
Definition replace_str (s pat templ : str) : str :=
  match split_at_first pat s with
  | Some (before, after) =>
      before ++ get_substitution pat before after templ ++ after
  | None => s
  end.

(** ** Regular expressions

    The constructs the source's patterns use: single code units (a
    literal, a class, a case-insensitive letter), the end anchor,
    sequence, the greedy optional group, greedy and lazy repetition of a
    class, and the capture group. *)

Inductive regex : Type :=
| Eps
| Chr (p : char -> bool)
| Eos
| Seq (r1 r2 : regex)
| Opt (r : regex)
| Rep (greedy : bool) (least : nat) (p : char -> bool)
| Group (r : regex).

Declare Scope regex_scope.
Delimit Scope regex_scope with re.
Bind Scope regex_scope with regex.
Notation "r1 ;; r2" := (Seq r1 r2) (at level 61, right associativity) : regex_scope.

Definition chr_is (c : char) : char -> bool := N.eqb c.
Definition chr_not (c : char) : char -> bool := fun x => negb (c =? x).
Definition any : char -> bool := fun _ => true.

(** A literal run of code units. *)
Fixpoint Lit (s : str) : regex :=
  match s with
  | [] => Eps
  | c :: s' => Seq (Chr (chr_is c)) (Lit s')
  end.

Definition caps : Type := list str.

(** The code units of [s] consumed when [rest] is what remains. *)
Definition consumed (s rest : str) : str :=
  firstn (length s - length rest) s.

(** Backtracking matcher, in continuation-passing style: [k] is tried on
    every way of matching, in the priority order of ECMAScript (greedy:
    longest first, lazy: shortest first), and the first success wins. *)
Fixpoint rep_greedy (A : Type) (p : char -> bool) (least : nat) (s : str)
    (k : str -> option A) {struct s} : option A :=
  match s with
  | c :: s' =>
      if p c then
        match rep_greedy p (Nat.pred least) s' k with
        | Some a => Some a
        | None => match least with O => k s | S _ => None end
        end
      else match least with O => k s | S _ => None end
  | [] => match least with O => k [] | S _ => None end
  end.

Fixpoint rep_lazy (A : Type) (p : char -> bool) (least : nat) (s : str)
    (k : str -> option A) {struct s} : option A :=
  match s with
  | c :: s' =>
      match least with
      | O =>
          match k s with
          | Some a => Some a
          | None => if p c then rep_lazy p O s' k else None
          end
      | S n => if p c then rep_lazy p n s' k else None
      end
  | [] => match least with O => k [] | S _ => None end
  end.

Fixpoint mt (A : Type) (r : regex) (s : str) (c : caps)
    (k : caps -> str -> option A) {struct r} : option A :=
  match r with
  | Eps => k c s
  | Chr p =>
      match s with
      | x :: s' => if p x then k c s' else None
      | [] => None
      end
  | Eos => match s with [] => k c [] | _ :: _ => None end
  | Seq r1 r2 => mt r1 s c (fun c' s' => mt r2 s' c' k)
  | Opt r1 =>
      match mt r1 s c k with
      | Some a => Some a
      | None => k c s
      end
  | Rep g least p =>
      if g then rep_greedy p least s (k c) else rep_lazy p least s (k c)
  | Group r1 => mt r1 s c (fun c' s' => k (c' ++ [consumed s s']) s')
  end.

(** A match: where it starts, the matched text, the captured groups. *)
Record jsmatch : Type := MkMatch {
  m_index : nat;
  m_full : str;
  m_groups : caps
}.

(** [match[1]]. *)
Definition group1 (m : jsmatch) : str := nth 0%nat (m_groups m) [].

(** The match that starts at the head of [s], if there is one. *)
Definition exec_here (r : regex) (s : str) : option (str * caps) :=
  mt r s [] (fun c rest => Some (consumed s rest, c)).

(** [s.match(r)] for a pattern without the [g] flag: the leftmost match,
    with the text before it. *)
Fixpoint search (r : regex) (pos : nat) (s : str) : option (str * jsmatch) :=
  match exec_here r s with
  | Some (m, c) => Some ([], MkMatch pos m c)
  | None =>
      match s with
      | [] => None
      | x :: s' =>
          match search r (S pos) s' with
          | Some (b, m) => Some (x :: b, m)
          | None => None
          end
      end
  end.

Definition js_match (r : regex) (s : str) : option jsmatch :=
  match search r 0 s with Some (_, m) => Some m | None => None end.

(** A pattern with the [g] flag cuts the text into the code units it
    keeps and the matches, left to right, one match starting where the
    previous one ended (one unit further after an empty match). *)
Inductive seg : Type :=
| Keep (c : char)
| Hit (m : jsmatch).

Fixpoint scan (r : regex) (skip pos : nat) (s : str) {struct s} : list seg :=
  match skip with
  | S n =>
      match s with
      | [] => []
      | _ :: s' => scan r n (S pos) s'
      end
  | O =>
      match exec_here r s with
      | Some (m, c) =>
          Hit (MkMatch pos m c) ::
          match s with
          | [] => []
          | x :: s' =>
              match m with
              | [] => Keep x :: scan r 0 (S pos) s'
              | _ :: m' => scan r (length m') (S pos) s'
              end
          end
      | None =>
          match s with
          | [] => []
          | x :: s' => Keep x :: scan r 0 (S pos) s'
          end
      end
  end.

Fixpoint hits (l : list seg) : list jsmatch :=
  match l with
  | [] => []
  | Keep _ :: t => hits t
  | Hit m :: t => m :: hits t
  end.

(** [Array.from(s.matchAll(r))]. *)
Definition matchAll (r : regex) (s : str) : list jsmatch := hits (scan r 0 0 s).

(** [s.replace(r, callback)] with the [g] flag; the callback may update
    a state of its own (the source's callback pushes to an array). *)
Fixpoint splice (S : Type) (f : jsmatch -> S -> str * S) (l : list seg) (st : S)
    : str * S :=
  match l with
  | [] => ([], st)
  | Keep c :: t => let (o, st') := splice f t st in (c :: o, st')
  | Hit m :: t =>
      let (rep, st1) := f m st in
      let (o, st2) := splice f t st1 in
      (rep ++ o, st2)
  end.

Definition replace_fn (S : Type) (r : regex) (f : jsmatch -> S -> str * S)
    (s : str) (st : S) : str * S :=
  splice f (scan r 0 0 s) st.

(** [s.replace(r, templ)] with the [g] flag and a string replacement. *)
Definition replace_all (r : regex) (templ s : str) : str :=
  fst (replace_fn r
         (fun m (_ : unit) =>
            (get_substitution (m_full m) (firstn (m_index m) s)
               (skipn (m_index m + length (m_full m)) s) templ, tt))
         s tt).

(** [s.replace(r, templ)] without the [g] flag: the leftmost match only. *)
Definition replace_first (r : regex) (templ s : str) : str :=
  match search r 0 s with
  | Some (before, m) =>
      let after := skipn (length before + length (m_full m)) s in
      before ++ get_substitution (m_full m) before after templ ++ after
  | None => s
  end.

(** ** The [path] module of Node

    [path.join], [path.basename] and [path.dirname] belong to the
    platform, not to the plugin, and differ between POSIX and Windows:
    the pipeline is stated over any implementation of them. *)

Class PathApi : Type := {
  path_join : list str -> str;
  path_basename : str -> str -> str;
  path_dirname : str -> str
}.

(** ** The plugin: settings and pure helpers *)

Record Md2OverleafSettings : Type := {
  scriptPath : str;
  uploadHost : str;
  autoOpen : bool
}.

Definition DEFAULT_SETTINGS : Md2OverleafSettings := {|
  scriptPath := lit "${vault}/mdtex.sh";
  uploadHost := lit "https://transfer.sh";
  autoOpen := true
|}.

(** [const expand = (p: string) => p.replace("${vault}", vaultPath)] *)
Definition expand (vaultPath p : str) : str :=
  replace_str p (lit "${vault}") vaultPath.

(** [/\\pandocbounded\{\s*\\includegraphics(?:\[[^\]]*\])?\{(pictures\/[^}]+)\}\s*\}/g] *)
Definition reBounded : regex :=
  (Lit (lit "\pandocbounded{") ;; Rep true 0 is_space ;;
   Lit (lit "\includegraphics") ;;
   Opt (Lit (lit "[") ;; Rep true 0 (chr_not 93) ;; Lit (lit "]")) ;;
   Lit (lit "{") ;;
   Group (Lit (lit "pictures/") ;; Rep true 1 (chr_not 125)) ;;
   Lit (lit "}") ;; Rep true 0 is_space ;; Lit (lit "}"))%re.

(** [/\\/g] *)
Definition reBackslash : regex := Chr (chr_is 92).

(** [/!\{\[\}\{\[\}(pictures\/[^{}]+?\.md)\{\]\}\{\]\}/g] *)
Definition reTldrawEscaped : regex :=
  (Lit (lit "!{[}{[}") ;;
   Group (Lit (lit "pictures/") ;;
          Rep false 1 (fun c => chr_not 123 c && chr_not 125 c) ;;
          Lit (lit ".md")) ;;
   Lit (lit "{]}{]}"))%re.

(** [/```tldraw\s*\n([\s\S]*?)```/] *)
Definition reTldrawFence : regex :=
  (Lit (lit "```tldraw") ;; Rep true 0 is_space ;; Chr (chr_is 10) ;;
   Group (Rep false 0 any) ;; Lit (lit "```"))%re.

(** [/\.tex$/i]: under the [i] flag a letter matches both of its cases
    (no code unit above 127 is canonicalized to an ASCII letter). *)
Definition reTexExt : regex :=
  (Chr (chr_is 46) ;; Chr (fun c => chr_is 116 c || chr_is 84 c) ;;
   Chr (fun c => chr_is 101 c || chr_is 69 c) ;;
   Chr (fun c => chr_is 120 c || chr_is 88 c) ;; Eos)%re.

(** [/[_-]+/g] *)
Definition is_sep (c : char) : bool := chr_is 95 c || chr_is 45 c.
Definition reSeparators : regex := Rep true 1 is_sep.

(** [/\s+/g] *)
Definition reSpaces : regex := Rep true 1 is_space.

(** [/\\title\s*\{[^}]*\}/] *)
Definition reTitle : regex :=
  (Lit (lit "\title") ;; Rep true 0 is_space ;; Lit (lit "{") ;;
   Rep true 0 (chr_not 125) ;; Lit (lit "}"))%re.

(** [/\\include\s*\{[^}]*\}/] *)
Definition reInclude : regex :=
  (Lit (lit "\include") ;; Rep true 0 is_space ;; Lit (lit "{") ;;
   Rep true 0 (chr_not 125) ;; Lit (lit "}"))%re.

(** [/https?:\/\/bashupload\.app\/\S+/] *)
Definition reUploadUrl : regex :=
  (Lit (lit "http") ;; Opt (Lit (lit "s")) ;; Lit (lit "://bashupload.app/") ;;
   Rep true 1 not_space)%re.

(** The canonical directive [\includegraphics[width=\linewidth]{...}]. *)
Definition includegraphics (rel : str) : str :=
  lit "\includegraphics[width=\linewidth]{" ++ rel ++ lit "}".

(** [{abs, rel}], an entry of [toCopy]. *)
Record AssetCopyTask : Type := {
  abs : str;
  rel : str
}.

(** [{pngRel, pngAbs}] *)
Record DrawingExport : Type := {
  pngRel : str;
  pngAbs : str
}.

Section Pure.
Context {P : PathApi}.

(** The callback of [tex.replace(reBounded, ...)]: pushes one task and
    returns the canonical directive. *)
Definition onBounded (vaultPath : str) (m : jsmatch) (toCopy : list AssetCopyTask)
    : str * list AssetCopyTask :=
  let relPath := group1 m in
  let abs := path_join [vaultPath; relPath] in
  let relNormalized := replace_all reBackslash (lit "/") relPath in
  (includegraphics relNormalized,
   toCopy ++ [{| abs := abs; rel := relNormalized |}]).

(** Step 1 of the rewrite: the new text and the tasks recorded. *)
Definition rewriteBounded (vaultPath tex : str) : str * list AssetCopyTask :=
  replace_fn reBounded (onBounded vaultPath) tex [].

(** [base.replace(/\.tex$/i, "")] *)
Definition baseNoExt (base : str) : str := replace_first reTexExt [] base.

(** [baseNoExt.replace(/[_-]+/g, " ").replace(/\s+/g, " ").trim()] *)
Definition niceTitle (base : str) : str :=
  trim (replace_all reSpaces (lit " ")
          (replace_all reSeparators (lit " ") (baseNoExt base))).

(** [cd "<outDir>" && curl bashupload.app -T "<base>.zip"] *)
Definition uploadCmd (outDir base : str) : str :=
  lit "cd " ++ dq ++ outDir ++ dq ++ lit " && curl bashupload.app -T " ++
  dq ++ base ++ lit ".zip" ++ dq.

(** [./mdtex.sh -v "<filePath>"] *)
Definition converterCmd (filePath : str) : str :=
  lit "./mdtex.sh -v " ++ dq ++ filePath ++ dq.

Definition overleafUrl (zipUrl base : str) : str :=
  lit "https://www.overleaf.com/docs?snip_uri=" ++ zipUrl ++
  lit "&engine=xelatex&name=" ++ base.

End Pure.

(** ** Effects

    What the plugin does to the outside world: the host application
    (active file, vault path, notices), the console, the file system
    ([fs-extra]), subprocesses ([child_process.exec]), the archive
    ([adm-zip]) and the browser ([openurl]).  An operation that can throw
    (or reject) answers in [exn + _].  The synchronous and the awaited
    variants of one file operation are one effect: the source awaits each
    promise where it is created. *)

Definition exn : Type := str.

Inductive level : Type := LLog | LWarn | LError.

(** The options of [exec]: [cwd], [shell], and the variables laid over
    [process.env] ([None] when no [env] is passed). *)
Record ExecOptions : Type := {
  cwd : option str;
  shell : str;
  env : option (list (str * str))
}.

(** What the callback of [exec] receives. *)
Record ExecResult : Type := {
  exec_err : option exn;
  exec_stdout : str;
  exec_stderr : str
}.

Inductive eff : Type -> Type :=
| GetActiveFile : eff (option str)
| GetBasePath : eff str
| Notice (msg : str) : eff unit
| Console (l : level) (args : list str) : eff unit
| Exec (cmd : str) (o : ExecOptions) : eff ExecResult
| Spawn (cmd : str) (o : ExecOptions) : eff (exn + unit)
| EnsureDir (p : str) : eff (exn + unit)
| Remove (p : str) : eff (exn + unit)
| ReadFile (p : str) : eff (exn + str)
| WriteFile (p data : str) : eff (exn + unit)
| PathExists (p : str) : eff bool
| Copy (src dst : str) : eff (exn + unit)
| CopyFileSync (src dst : str) : eff (exn + unit)
| ZipFolder (dir zipRoot zipPath : str) : eff (exn + unit)
| OpenUrl (url : str) : eff unit.

(** Programs: return, throw, or perform an effect and go on with its
    answer. *)
Inductive prog (A : Type) : Type :=
| Ret (a : A)
| Throw (e : exn)
| Vis (X : Type) (e : eff X) (k : X -> prog A).

Arguments Throw {A} e.
Arguments Vis {A X} e k.

Fixpoint bind_prog (A B : Type) (p : prog A) (f : A -> prog B) : prog B :=
  match p with
  | Ret a => f a
  | Throw e => Throw e
  | Vis e k => Vis e (fun x => bind_prog (k x) f)
  end.

(** [try { p } catch (e) { h e }] *)
Fixpoint try_catch (A : Type) (p : prog A) (h : exn -> prog A) : prog A :=
  match p with
  | Ret a => Ret a
  | Throw e => h e
  | Vis e k => Vis e (fun x => try_catch (k x) h)
  end.

#[export] Instance Monad_prog : Monad prog :=
  {| ret := @Ret; bind := @bind_prog |}.

#[export] Instance Exc_prog : MonadExc exn prog :=
  {| raise := @Throw; catch := @try_catch |}.

(** An effect that cannot throw. *)
Definition emit (X : Type) (e : eff X) : prog X := Vis e (@Ret X).

(** An effect that can: its exception is thrown on. *)
Definition call (X : Type) (e : eff (exn + X)) : prog X :=
  Vis e (fun r => match r with inl x => Throw x | inr v => Ret v end).

(** [for (const x of l) { body }] *)
Fixpoint for_each (A : Type) (l : list A) (body : A -> prog unit) : prog unit :=
  match l with
  | [] => Ret tt
  | x :: t => bind_prog (body x) (fun _ => for_each t body)
  end.

(** The same loop around a variable that the body reassigns. *)
Fixpoint for_fold (A S : Type) (l : list A) (body : A -> S -> prog S) (s : S)
    : prog S :=
  match l with
  | [] => Ret s
  | x :: t => bind_prog (body x s) (fun s' => for_fold t body s')
  end.

(** The outside world: a state and the answer it gives to each effect. *)
Record World : Type := {
  St : Type;
  handle : forall X : Type, eff X -> St -> X * St
}.

(** An effect performed, with its answer. *)
Inductive event : Type :=
| Ev (X : Type) (e : eff X) (x : X).

(** Running a program: its outcome, the final state, and the effects
    performed in order. *)
Fixpoint run (A : Type) (W : World) (p : prog A) (s : St W)
    : (exn + A) * St W * list event :=
  match p with
  | Ret a => (inr a, s, [])
  | Throw e => (inl e, s, [])
  | Vis e k =>
      let (x, s1) := handle W e s in
      let '(r, s2, tr) := run W (k x) s1 in
      (r, s2, Ev e x :: tr)
  end.

Definition outcome (A : Type) (W : World) (p : prog A) (s : St W) : exn + A :=
  fst (fst (run W p s)).

Definition trace (A : Type) (W : World) (p : prog A) (s : St W) : list event :=
  snd (run W p s).

(** ** The pipeline *)

Local Open Scope monad_scope.

(** [PATH: "/opt/homebrew/bin:/usr/local/bin:/usr/bin:/bin:/usr/sbin:/sbin"] *)
Definition fixedPath : str * str :=
  (lit "PATH", lit "/opt/homebrew/bin:/usr/local/bin:/usr/bin:/bin:/usr/sbin:/sbin").

(** The comment left where a drawing could not be exported. *)
Definition missingComment (relMd : str) : str :=
  lit "% [md2overleaf] missing tldraw export for " ++ relMd.

(** [exported?.pngRel && exported?.pngAbs]: both strings present and not
    empty. *)
Definition exportedOk (e : option DrawingExport) : option DrawingExport :=
  match e with
  | Some d =>
      match pngRel d, pngAbs d with
      | _ :: _, _ :: _ => Some d
      | _, _ => None
      end
  | None => None
  end.

Section Pipeline.
Context {P : PathApi}.

(** [exportTldrawMdToPng]: the whole body is inside [try]; the callback
    of its [exec] only logs, later, and is not awaited. *)
Definition exportTldrawMdToPng (vaultPath outDir stageRoot mdAbs : str)
    : prog (option DrawingExport) :=
  catch
    (src <- call (ReadFile mdAbs) ;;
     match js_match reTldrawFence src with
     | None => ret None
     | Some m =>
         let drawJson := group1 m in
         let drawBase := path_basename mdAbs (lit ".md") in
         let pngRel := lit "pictures/" ++ drawBase ++ lit ".png" in
         let pngAbs := path_join [stageRoot; pngRel] in
         let tmpTldr := path_join [outDir; drawBase ++ lit ".tldr"] in
         call (EnsureDir (path_dirname pngAbs)) ;;
         call (WriteFile tmpTldr drawJson) ;;
         let converter := path_join [vaultPath; lit "tldraw_convert.sh"] in
         let cmd := dq ++ converter ++ dq ++ lit " " ++ dq ++ tmpTldr ++ dq ++
                    lit " " ++ dq ++ pngAbs ++ dq in
         call (Spawn cmd {| cwd := Some vaultPath; shell := lit "/bin/bash";
                            env := Some [fixedPath; (lit "npm_config_yes", lit "true")] |}) ;;
         call (Remove tmpTldr) ;;
         ret (Some {| pngRel := pngRel; pngAbs := pngAbs |})
     end)
    (fun e =>
       emit (Console LWarn [lit "[md2overleaf] tldraw export failed:"; mdAbs; e]) ;;
       ret None).

(** The body of the loop over the Pattern-B matches: one export, then
    one [tex.replace(full, replacement)]. *)
Definition tldrawStep (vaultPath outDir stageRoot : str) (m : jsmatch) (tex : str)
    : prog str :=
  let full := m_full m in
  let relMd := trim (group1 m) in
  let absMd := path_join [vaultPath; relMd] in
  exported <- exportTldrawMdToPng vaultPath outDir stageRoot absMd ;;
  match exportedOk exported with
  | Some d => ret (replace_str tex full (includegraphics (pngRel d)))
  | None => ret (replace_str tex full (missingComment relMd))
  end.

(** [for (const match of Array.from(tex.matchAll(reTldrawEscaped)))] *)
Definition replaceTldraw (vaultPath outDir stageRoot tex : str) : prog str :=
  for_fold (matchAll reTldrawEscaped tex)
    (tldrawStep vaultPath outDir stageRoot) tex.

(** The two rewrite passes: Pattern A, then Pattern B on its result. *)
Definition rewriteRefs (vaultPath outDir stageRoot tex : str)
    : prog (str * list AssetCopyTask) :=
  let (tex1, toCopy) := rewriteBounded vaultPath tex in
  tex2 <- replaceTldraw vaultPath outDir stageRoot tex1 ;;
  ret (tex2, toCopy).

(** [for (const { abs, rel } of toCopy)] *)
Definition copyTask (stageRoot : str) (t : AssetCopyTask) : prog unit :=
  let dest := path_join [stageRoot; rel t] in
  call (EnsureDir (path_dirname dest)) ;;
  present <- emit (PathExists (abs t)) ;;
  if present : bool then call (Copy (abs t) dest)
  else emit (Console LWarn [lit "[md2overleaf] missing referenced image:"; abs t]).

Definition copyAssets (stageRoot : str) (toCopy : list AssetCopyTask) : prog unit :=
  for_each toCopy (copyTask stageRoot).

(** Step 3 and the write of the rewritten text into the stage. *)
Definition stageAssets (stageRoot stagedTexPath : str)
    (toCopy : list AssetCopyTask) (tex : str) : prog unit :=
  copyAssets stageRoot toCopy ;;
  call (WriteFile stagedTexPath tex).

(** Steps 1 to 3 and the write. *)
Definition stageTex (vaultPath outDir stageRoot stagedTexPath tex : str)
    : prog unit :=
  r <- rewriteRefs vaultPath outDir stageRoot tex ;;
  stageAssets stageRoot stagedTexPath (snd r) (fst r).

(** The callback of the upload [exec]. *)
Definition onUploaded (settings : Md2OverleafSettings) (base : str)
    (r : ExecResult) : prog unit :=
  match exec_err r with
  | Some _ =>
      emit (Console LError [lit "Upload error:"; exec_stderr r]) ;;
      emit (Notice (lit "Upload failed. See console for details."))
  | None =>
      match js_match reUploadUrl (exec_stdout r) with
      | None =>
          emit (Console LError [lit "Could not find URL in output:"; exec_stdout r]) ;;
          emit (Notice (lit "Upload finished, but no URL found in output."))
      | Some m =>
          let zipUrl := trim (m_full m) in
          let url := overleafUrl zipUrl base in
          emit (Console LLog [[55356; 57151] ++ lit " Overleaf URL:"; url]) ;;
          if autoOpen settings then
            emit (OpenUrl url) ;;
            emit (Notice (lit "Opening in Overleaf..."))
          else
            emit (Notice (lit "Upload complete. See console for Overleaf URL."))
      end
  end.

(** The callback of the converter [exec]. *)
Definition onConverted (settings : Md2OverleafSettings)
    (vaultPath base outDir : str) (r : ExecResult) : prog unit :=
  match exec_err r with
  | Some _ =>
      emit (Console LError [lit "Script error:"; exec_stderr r]) ;;
      emit (Notice (lit "Conversion script failed. See console."))
  | None =>
      emit (Console LLog [exec_stdout r]) ;;
      emit (Notice (lit "Conversion complete. Preparing ZIP...")) ;;
      let texPath := path_join [vaultPath; lit ".md2overleaf"; base; base ++ lit ".tex"] in
      emit (Console LLog [[55357; 56589] ++ lit " Expecting TEX at:"; texPath]) ;;
      tex <- call (ReadFile texPath) ;;
      let stageRoot := path_join [outDir; lit "__stage__"] in
      call (Remove stageRoot) ;;
      call (EnsureDir stageRoot) ;;
      let stagedTexPath := path_join [stageRoot; base ++ lit ".tex"] in
      stageTex vaultPath outDir stageRoot stagedTexPath tex ;;
      for_each [lit "config.tex"; lit "main.tex"]
        (fun f => call (CopyFileSync (path_join [vaultPath; f])
                                     (path_join [stageRoot; f]))) ;;
      let noExt := baseNoExt base in
      let title := niceTitle base in
      let src := path_join [vaultPath; lit "main.tex"] in
      titletex <- call (ReadFile src) ;;
      let titletex1 :=
        replace_first reTitle (lit "\title{" ++ title ++ lit "}") titletex in
      let titletex2 :=
        replace_first reInclude (lit "\include{" ++ noExt ++ lit "}") titletex1 in
      let dst := path_join [stageRoot; lit "main.tex"] in
      call (WriteFile dst titletex2) ;;
      let zipPath := path_join [outDir; base ++ lit ".zip"] in
      call (ZipFolder stageRoot (lit ".") zipPath) ;;
      emit (Notice (lit "Uploading to Overleaf...")) ;;
      let cmd := uploadCmd outDir base in
      emit (Console LLog [[55357; 56548] ++ lit " Upload command:"; cmd]) ;;
      up <- emit (Exec cmd {| cwd := None; shell := lit "/bin/bash"; env := None |}) ;;
      onUploaded settings base up
  end.

(** [exportToOverleaf]; [script] and [vaultDir] are computed and not
    used, as in the source.  [this.settings] is the record as it is when
    the command starts. *)
Definition exportToOverleaf (settings : Md2OverleafSettings) : prog unit :=
  file <- emit GetActiveFile ;;
  match file with
  | None => emit (Notice (lit "No active note selected."))
  | Some file_path =>
      vaultPath <- emit GetBasePath ;;
      let filePath := path_join [vaultPath; file_path] in
      let base := path_basename filePath (lit ".md") in
      let outDir := path_join [vaultPath; lit ".md2overleaf"; base] in
      call (EnsureDir outDir) ;;
      let script := expand vaultPath (scriptPath settings) in
      let vaultDir := path_dirname (expand vaultPath (lit "${vault}/.")) in
      let cmd := converterCmd filePath in
      emit (Console LLog [[55358; 56800] ++ lit " Running:"; cmd]) ;;
      emit (Console LLog [lit "Vault base path:"; vaultPath]) ;;
      r <- emit (Exec cmd {| cwd := Some vaultPath; shell := lit "/bin/bash";
                             env := Some [fixedPath] |}) ;;
      onConverted settings vaultPath base outDir r
  end.

End Pipeline.

(** ** A concrete platform, for the worked examples

    A POSIX-like [path] on paths that need no normalization, and a world
    whose file system is a list of files with their contents. *)

Fixpoint last_segment (acc p : str) : str :=
  match p with
  | [] => acc
  | c :: p' => if c =? 47 then last_segment [] p' else last_segment (acc ++ [c]) p'
  end.

Definition strip_suffix (ext s : str) : str :=
  match strip_prefix (rev ext) (rev s) with
  | Some ((_ :: _) as r) => rev r
  | _ => s
  end.

Definition join_segments (l : list str) : str :=
  fold_right
    (fun a b => match a, b with
                | [], _ => b
                | _, [] => a
                | _, _ => a ++ [47] ++ b
                end) [] l.

Definition parent_dir (p : str) : str :=
  firstn (length p - length (last_segment [] p) - 1) p.

Definition posixPath : PathApi := {|
  path_join := join_segments;
  path_basename := fun p ext => strip_suffix ext (last_segment [] p);
  path_dirname := parent_dir
|}.

Record Sim : Type := {
  sim_active : option str;
  sim_vault : str;
  sim_files : list (str * str);
  sim_exec : str -> ExecResult
}.

Fixpoint lookup (p : str) (fs : list (str * str)) : option str :=
  match fs with
  | [] => None
  | (q, c) :: t => if str_eqb p q then Some c else lookup p t
  end.

Definition with_files (w : Sim) (fs : list (str * str)) : Sim :=
  {| sim_active := sim_active w; sim_vault := sim_vault w;
     sim_files := fs; sim_exec := sim_exec w |}.

Definition enoent : exn := lit "ENOENT".

Definition sim_copy (src dst : str) (w : Sim) : (exn + unit) * Sim :=
  match lookup src (sim_files w) with
  | Some c => (inr tt, with_files w ((dst, c) :: sim_files w))
  | None => (inl enoent, w)
  end.

Definition sim_handle (X : Type) (e : eff X) (w : Sim) : X * Sim :=
  match e in eff T return T * Sim with
  | GetActiveFile => (sim_active w, w)
  | GetBasePath => (sim_vault w, w)
  | Notice _ => (tt, w)
  | Console _ _ => (tt, w)
  | Exec cmd _ => (sim_exec w cmd, w)
  | Spawn _ _ => (inr tt, w)
  | EnsureDir _ => (inr tt, w)
  | Remove p =>
      (inr tt,
       with_files w
         (filter (fun f => negb (str_eqb p (fst f) || starts_with (p ++ [47]) (fst f)))
            (sim_files w)))
  | ReadFile p =>
      (match lookup p (sim_files w) with
       | Some c => inr c
       | None => inl enoent
       end, w)
  | WriteFile p d => (inr tt, with_files w ((p, d) :: sim_files w))
  | PathExists p =>
      (match lookup p (sim_files w) with Some _ => true | None => false end, w)
  | Copy src dst => sim_copy src dst w
  | CopyFileSync src dst => sim_copy src dst w
  | ZipFolder _ _ _ => (inr tt, w)
  | OpenUrl _ => (tt, w)
  end.

Definition simWorld : World := {| St := Sim; handle := sim_handle |}.

(** A vault at [/v] with the given files, the active note [Notes.md],
    and subprocesses that succeed printing [out]. *)
Definition vault (files : list (str * str)) (out : str) : Sim := {|
  sim_active := Some (lit "Notes.md");
  sim_vault := lit "/v";
  sim_files := files;
  sim_exec := fun _ => {| exec_err := None; exec_stdout := out; exec_stderr := [] |}
|}.

(** ** What a pattern denotes

    [den r m rest c c']: the pattern [r] matches the text [m] when
    [rest] follows it, turning the captures [c] into [c'].  This is the
    declarative reading of the pattern; the matcher is proved sound and
    complete for it in Part II. *)

Fixpoint den (r : regex) (m rest : str) (c c' : caps) : Prop :=
  match r with
  | Eps => m = [] /\ c' = c
  | Chr p => exists x, m = [x] /\ p x = true /\ c' = c
  | Eos => m = [] /\ rest = [] /\ c' = c
  | Seq r1 r2 =>
      exists m1 m2 c1,
        m = m1 ++ m2 /\ den r1 m1 (m2 ++ rest) c c1 /\ den r2 m2 rest c1 c'
  | Opt r1 => den r1 m rest c c' \/ (m = [] /\ c' = c)
  | Rep _ least p => (least <= length m)%nat /\ forallb p m = true /\ c' = c
  | Group r1 => exists c1, den r1 m rest c c1 /\ c' = c1 ++ [m]
  end.

(** The text a list of segments was cut from. *)
Fixpoint src_of (l : list seg) : str :=
  match l with
  | [] => []
  | Keep c :: t => c :: src_of t
  | Hit m :: t => m_full m ++ src_of t
  end.

(** The text after a global replacement by [g]. *)
Fixpoint render (g : jsmatch -> str) (l : list seg) : str :=
  match l with
  | [] => []
  | Keep c :: t => c :: render g t
  | Hit m :: t => g m ++ render g t
  end.









(** A program no run of which ends in an exception. *)
Fixpoint no_throw (A : Type) (p : prog A) : Prop :=
  match p with
  | Ret _ => True
  | Throw _ => False
  | Vis _ k => forall x, no_throw (k x)
  end.

(** What replaces a Pattern-B placeholder, given the export's result. *)
Definition tldrawReplacement (relMd : str) (exported : option DrawingExport) : str :=
  match exportedOk exported with
  | Some d => includegraphics (pngRel d)
  | None => missingComment relMd
  end.

(** One [tex.replace(full, replacement)] per collected match: only the
    matched text and the captured path are used, never the index. *)
Definition applyTldraw (tex : str) (mo : jsmatch * option DrawingExport) : str :=
  replace_str tex (m_full (fst mo))
    (tldrawReplacement (trim (group1 (fst mo))) (snd mo)).

(** An effect that answered with an exception. *)
Definition failedb (ev : event) : bool :=
  match ev with
  | @Ev _ e x =>
      match e in eff T return T -> bool with
      | Spawn _ _ => fun r => match r with inl _ => true | inr _ => false end
      | EnsureDir _ => fun r => match r with inl _ => true | inr _ => false end
      | Remove _ => fun r => match r with inl _ => true | inr _ => false end
      | ReadFile _ => fun r => match r with inl _ => true | inr _ => false end
      | WriteFile _ _ => fun r => match r with inl _ => true | inr _ => false end
      | Copy _ _ => fun r => match r with inl _ => true | inr _ => false end
      | CopyFileSync _ _ => fun r => match r with inl _ => true | inr _ => false end
      | ZipFolder _ _ _ => fun r => match r with inl _ => true | inr _ => false end
      | _ => fun _ => false
      end x
  end.

(** No effect of the list answered with an exception. *)
Definition all_succeeded (tr : list event) : bool :=
  forallb (fun ev => negb (failedb ev)) tr.

Section Expected.
Context {P : PathApi}.

(** What the copy loop does for one task, [present] being the answer of
    the existence check: the check comes before the copy, and the copy
    only when the source is there; otherwise a warning. *)
Definition copyEvents (stageRoot : str) (tb : AssetCopyTask * bool) : list event :=
  let (t, present) := tb in
  let dest := path_join [stageRoot; rel t] in
  [Ev (EnsureDir (path_dirname dest)) (inr tt); Ev (PathExists (abs t)) present] ++
  (if present then [Ev (Copy (abs t) dest) (inr tt)]
   else [Ev (Console LWarn [lit "[md2overleaf] missing referenced image:"; abs t]) tt]).

End Expected.

(** The longest prefix whose code units satisfy [p], and what follows. *)
Fixpoint take_while (p : char -> bool) (s : str) : str :=
  match s with
  | x :: s' => if p x then x :: take_while p s' else []
  | [] => []
  end.

Fixpoint drop_while (p : char -> bool) (s : str) : str :=
  match s with
  | x :: s' => if p x then drop_while p s' else s
  | [] => []
  end.

(** A URL of the upload host, as the pattern of the source reads:
    [http://bashupload.app/] or [https://bashupload.app/] and at least
    one code unit that is not white space. *)
Definition is_upload_url (u : str) : Prop :=
  exists w,
    (u = lit "http://bashupload.app/" ++ w \/
     u = lit "https://bashupload.app/" ++ w) /\
    w <> [] /\ forallb not_space w = true.

(** The commands and options of the awaited subprocesses of a run. *)
Fixpoint execs (tr : list event) : list (str * ExecOptions) :=
  match tr with
  | [] => []
  | @Ev _ e _ :: t =>
      match e with
      | Exec c o => (c, o) :: execs t
      | _ => execs t
      end
  end.

(** The URLs opened in a run. *)
Fixpoint opened (tr : list event) : list str :=
  match tr with
  | [] => []
  | @Ev _ e _ :: t =>
      match e with
      | OpenUrl u => u :: opened t
      | _ => opened t
      end
  end.

(** The files written in a run, with their contents. *)
Fixpoint writes (tr : list event) : list (str * str) :=
  match tr with
  | [] => []
  | @Ev _ e _ :: t =>
      match e with
      | WriteFile p d => (p, d) :: writes t
      | _ => writes t
      end
  end.

(** The notices shown in a run. *)
Fixpoint notices (tr : list event) : list str :=
  match tr with
  | [] => []
  | @Ev _ e _ :: t =>
      match e with
      | Notice m => m :: notices t
      | _ => notices t
      end
  end.

(** The console lines of a run. *)
Fixpoint console (tr : list event) : list (level * list str) :=
  match tr with
  | [] => []
  | @Ev _ e _ :: t =>
      match e with
      | Console l a => (l, a) :: console t
      | _ => console t
      end
  end.

(** The scheme and host part of [reUploadUrl]. *)
Definition reUploadHead : regex :=
  (Lit (lit "http") ;; Opt (Lit (lit "s")) ;; Lit (lit "://bashupload.app/"))%re.

(** The deep link into the editor. *)
Definition deepLink (url base : str) : str :=
  lit "https://www.overleaf.com/docs" ++ lit "?snip_uri=" ++ url ++
  lit "&engine=xelatex" ++ lit "&name=" ++ base.

(** Each maximal run of code units satisfying [p] becomes one space;
    [in_run] tells that the run has begun. *)
Fixpoint squeeze (p : char -> bool) (in_run : bool) (s : str) : str :=
  match s with
  | [] => []
  | x :: s' =>
      if p x then
        if in_run then squeeze p true s' else 32 :: squeeze p true s'
      else x :: squeeze p false s'
  end.

Definition head_not_space (s : str) : bool :=
  match s with [] => true | x :: _ => not_space x end.

(** Every white-space code unit is a space, and no white space follows
    it. *)
Fixpoint single_spaced (s : str) : bool :=
  match s with
  | [] => true
  | x :: s' =>
      (if is_space x then (x =? 32) && head_not_space s' else true)
      && single_spaced s'
  end.

(** [s.trimEnd()], the second half of [trim]. *)
Definition trim_end (s : str) : str := rev (trim_start (rev s)).

(** Every awaited subprocess that the program can start satisfies [Q]. *)
Fixpoint all_exec (A : Type) (Q : str -> ExecOptions -> Prop) (p : prog A) : Prop :=
  match p with
  | Vis e k =>
      match e with Exec c o => Q c o | _ => True end /\
      forall x, all_exec Q (k x)
  | _ => True
  end.

(** The two subprocess invocations of the pipeline. *)
Definition pipeline_exec (c : str) (o : ExecOptions) : Prop :=
  (exists filePath vaultPath,
      c = lit "./mdtex.sh -v " ++ dq ++ filePath ++ dq /\
      o = {| cwd := Some vaultPath; shell := lit "/bin/bash";
             env := Some [fixedPath] |}) \/
  (exists outDir base,
      c = lit "cd " ++ dq ++ outDir ++ dq ++ lit " && " ++
          lit "curl bashupload.app -T " ++ dq ++ base ++ lit ".zip" ++ dq /\
      o = {| cwd := None; shell := lit "/bin/bash"; env := None |}).

(** ** Further definitions, for the properties beyond the claims *)

(** The placeholder of [expand]. *)
Definition vaultPlaceholder : str := lit "${vault}".

(** No dollar: a replacement template that stands for itself. *)
Definition no_dollar (s : str) : bool := forallb (fun c => negb (c =? 36)) s.

(** [pat] does not occur in [b ++ pat ++ a] before the end of [b]. *)
Definition first_occurrence (pat b a : str) : Prop :=
  forall b1 b2 r, b = b1 ++ b2 -> b2 <> [] -> b2 ++ pat ++ a <> pat ++ r.

(** [titletex.replace(/\\title\s*\{[^}]*\}/, `\\title{${niceTitle}}`)] *)
Definition patchTitle (title titletex : str) : str :=
  replace_first reTitle (lit "\title{" ++ title ++ lit "}") titletex.

(** [titletex.replace(/\\include\s*\{[^}]*\}/, `\\include{${baseNoExt}}`)] *)
Definition patchInclude (noExt titletex : str) : str :=
  replace_first reInclude (lit "\include{" ++ noExt ++ lit "}") titletex.

(** A directive as the two patterns read it: the name, white space, an
    opening brace, and everything up to the first closing brace. *)
Definition is_directive (name d : str) : Prop :=
  exists ws arg,
    d = name ++ ws ++ lit "{" ++ arg ++ lit "}" /\
    forallb is_space ws = true /\ forallb (chr_not 125) arg = true.

(** No directive of that name starts in [b] when [d ++ a] follows. *)
Definition no_directive_before (name b d a : str) : Prop :=
  forall b1 b2 d' a',
    b = b1 ++ b2 -> b2 <> [] -> b2 ++ d ++ a = d' ++ a' -> ~ is_directive name d'.

(** A final [.tex], in any letter case. *)
Definition is_tex_ext (ext : str) : Prop :=
  exists t e x,
    ext = [46; t; e; x] /\ (t = 116 \/ t = 84) /\ (e = 101 \/ e = 69) /\
    (x = 120 \/ x = 88).

(** The paths removed in a run. *)
Fixpoint removes (tr : list event) : list str :=
  match tr with
  | [] => []
  | @Ev _ e _ :: t =>
      match e with
      | Remove p => p :: removes t
      | _ => removes t
      end
  end.

(** The commands of the subprocesses started without being awaited. *)
Fixpoint spawned (tr : list event) : list str :=
  match tr with
  | [] => []
  | @Ev _ e _ :: t =>
      match e with
      | Spawn c _ => c :: spawned t
      | _ => spawned t
      end
  end.

(** Every effect that the program can perform satisfies [Q]. *)
Fixpoint all_eff (A : Type) (Q : forall X : Type, eff X -> Prop) (p : prog A) : Prop :=
  match p with
  | Vis e k => Q _ e /\ forall x, all_eff Q (k x)
  | _ => True
  end.

(** Anything but opening a URL. *)
Definition not_open (X : Type) (e : eff X) : Prop :=
  match e with OpenUrl _ => False | _ => True end.

(** The awaited subprocesses of a run, with what their callbacks got. *)
Fixpoint exec_results (tr : list event) : list (str * ExecOptions * ExecResult) :=
  match tr with
  | [] => []
  | @Ev _ e x :: t =>
      match e in eff T return T -> list (str * ExecOptions * ExecResult) with
      | Exec c o => fun r => (c, o, r) :: exec_results t
      | _ => fun _ => exec_results t
      end x
  end.

(** The operations of a run on files of the vault: reads, writes,
    removals, copies, the archive, and started converters.  Creating a
    directory is not counted. *)
Fixpoint file_events (tr : list event) : list event :=
  match tr with
  | [] => []
  | (@Ev _ e _ as ev) :: t =>
      match e with
      | ReadFile _ | WriteFile _ _ | Remove _ | Copy _ _ | CopyFileSync _ _
      | ZipFolder _ _ _ | Spawn _ _ | PathExists _ => ev :: file_events t
      | _ => file_events t
      end
  end.

(** The awaited subprocesses of the program come in the order [qs], each
    started only when the one before it has returned without error, and
    no other is started. *)
Fixpoint exec_order (A : Type) (qs : list (str -> ExecOptions -> Prop))
    (p : prog A) : Prop :=
  match p with
  | @Vis _ X e k =>
      match e in eff T return (T -> prog A) -> Prop with
      | Exec c o => fun k =>
          match qs with
          | q :: qs' =>
              q c o /\
              forall r, match exec_err r with
                        | None => exec_order qs' (k r)
                        | Some _ => exec_order [] (k r)
                        end
          | [] => False
          end
      | _ => fun k => forall x, exec_order qs (k x)
      end k
  | _ => True
  end.

(** The same on the subprocesses of a run. *)
Fixpoint in_order (qs : list (str -> ExecOptions -> Prop))
    (l : list (str * ExecOptions * ExecResult)) : Prop :=
  match l with
  | [] => True
  | (c, o, r) :: l' =>
      match qs with
      | q :: qs' =>
          q c o /\
          match exec_err r with
          | None => in_order qs' l'
          | Some _ => in_order [] l'
          end
      | [] => False
      end
  end.

(** The converter: [./mdtex.sh -v "<filePath>"], run in the vault with
    the fixed search path. *)
Definition converter_exec (vaultPath filePath : str) (c : str) (o : ExecOptions)
    : Prop :=
  c = lit "./mdtex.sh -v " ++ dq ++ filePath ++ dq /\
  o = {| cwd := Some vaultPath; shell := lit "/bin/bash";
         env := Some [fixedPath] |}.

(** The upload: [curl] on the archive [<base>.zip], after a [cd] to the
    output directory. *)
Definition upload_exec (outDir base : str) (c : str) (o : ExecOptions) : Prop :=
  c = lit "cd " ++ dq ++ outDir ++ dq ++ lit " && curl bashupload.app -T " ++
      dq ++ base ++ lit ".zip" ++ dq /\
  o = {| cwd := None; shell := lit "/bin/bash"; env := None |}.

(** A program that throws only after one of its operations has thrown. *)
Fixpoint throws_only_on_failure (A : Type) (p : prog A) : Prop :=
  match p with
  | Ret _ => True
  | Throw _ => False
  | Vis e k => forall x, failedb (Ev e x) = false -> throws_only_on_failure (k x)
  end.

(** The files read in a run. *)
Fixpoint reads (tr : list event) : list str :=
  match tr with
  | [] => []
  | @Ev _ e _ :: t =>
      match e with
      | ReadFile p => p :: reads t
      | _ => reads t
      end
  end.

(** A world whose file system refuses every change: creating a
    directory, writing, copying, removing and archiving all throw. *)
Definition erofs : exn := lit "EROFS".

Definition readonly_handle (X : Type) (e : eff X) (w : Sim) : X * Sim :=
  match e in eff T return T * Sim with
  | EnsureDir _ => (inl erofs, w)
  | Remove _ => (inl erofs, w)
  | WriteFile _ _ => (inl erofs, w)
  | Copy _ _ => (inl erofs, w)
  | CopyFileSync _ _ => (inl erofs, w)
  | ZipFolder _ _ _ => (inl erofs, w)
  | e' => sim_handle e' w
  end.

Definition readonlyWorld : World := {| St := Sim; handle := readonly_handle |}.

(** A program that throws only as the direct consequence of an operation
    that has thrown; [failed] tells whether the last operation did. *)
Fixpoint throws_at_failure (A : Type) (failed : bool) (p : prog A) : Prop :=
  match p with
  | Ret _ => True
  | Throw _ => failed = true
  | Vis e k => forall x, throws_at_failure (failedb (Ev e x)) (k x)
  end.

(** Neither a notice nor an awaited subprocess. *)
Definition quiet (X : Type) (e : eff X) : Prop :=
  match e with Notice _ => False | Exec _ _ => False | _ => True end.

(** [throws_with Q p]: wherever [p] throws, [Q] holds of the notices
    shown and of the subprocesses awaited up to there. *)
Fixpoint throws_with (A : Type)
    (Q : list str -> list (str * ExecOptions * ExecResult) -> Prop)
    (p : prog A) : Prop :=
  match p with
  | Ret _ => True
  | Throw _ => Q [] []
  | Vis e k =>
      forall x,
        throws_with
          (match e in eff T
                 return T -> list str -> list (str * ExecOptions * ExecResult) -> Prop
           with
           | Notice n => fun _ ns xs => Q (n :: ns) xs
           | Exec c o => fun r ns xs => Q ns ((c, o, r) :: xs)
           | _ => fun _ => Q
           end x)
          (k x)
  end.

(* ===================================================================== *)
(** * Part II: properties *)
(* ===================================================================== *)

(** ** The matcher against the denotation *)

Lemma consumed_app (m rest : str) : consumed (m ++ rest) rest = m.
Proof.
  unfold consumed. rewrite length_app, Nat.add_sub.
  rewrite firstn_app, Nat.sub_diag, firstn_all. simpl. apply app_nil_r.
Qed.

Section Matcher.
Variable A : Type.

Lemma rep_greedy_sound p s : forall least (k : str -> option A) a,
  rep_greedy p least s k = Some a ->
  exists m rest, s = m ++ rest /\ (least <= length m)%nat /\
                 forallb p m = true /\ k rest = Some a.
Proof.
  induction s as [|x s IH]; intros least k a H; simpl in H.
  - destruct least; [|discriminate]. exists [], []. auto.
  - destruct (p x) eqn:Hp.
    + destruct (rep_greedy p (Nat.pred least) s k) eqn:Hr.
      * inversion H; subst. apply IH in Hr.
        destruct Hr as (m & rest & -> & Hl & Hf & Hk).
        exists (x :: m), rest. simpl. rewrite Hp, Hf. repeat split; auto; lia.
      * destruct least; [|discriminate]. exists [], (x :: s). auto.
    + destruct least; [|discriminate]. exists [], (x :: s). auto.
Qed.

Lemma rep_greedy_complete p s : forall least (k : str -> option A),
  rep_greedy p least s k = None ->
  forall m rest, s = m ++ rest -> (least <= length m)%nat ->
                 forallb p m = true -> k rest = None.
Proof.
  induction s as [|x s IH]; intros least k H m rest Hs Hl Hf; simpl in H.
  - symmetry in Hs. apply app_eq_nil in Hs. destruct Hs; subst.
    simpl in Hl. destruct least; [assumption|lia].
  - destruct m as [|y m]; simpl in *.
    + subst rest. assert (least = 0%nat) by lia. subst least.
      destruct (p x); [destruct (rep_greedy p (Nat.pred 0) s k)|]; congruence.
    + inversion Hs; subst y s. apply andb_prop in Hf. destruct Hf as [Hx Hf].
      rewrite Hx in H.
      destruct (rep_greedy p (Nat.pred least) (m ++ rest) k) eqn:Hr.
      * discriminate.
      * eapply IH; eauto. lia.
Qed.

Lemma rep_lazy_sound p s : forall least (k : str -> option A) a,
  rep_lazy p least s k = Some a ->
  exists m rest, s = m ++ rest /\ (least <= length m)%nat /\
                 forallb p m = true /\ k rest = Some a.
Proof.
  induction s as [|x s IH]; intros least k a H; simpl in H.
  - destruct least; [|discriminate]. exists [], []. auto.
  - destruct least as [|n].
    + destruct (k (x :: s)) eqn:Hk.
      * inversion H; subst. exists [], (x :: s). auto.
      * destruct (p x) eqn:Hp; [|discriminate]. apply IH in H.
        destruct H as (m & rest & -> & Hl & Hf & Hk').
        exists (x :: m), rest. simpl. rewrite Hp, Hf. repeat split; auto; lia.
    + destruct (p x) eqn:Hp; [|discriminate]. apply IH in H.
      destruct H as (m & rest & -> & Hl & Hf & Hk').
      exists (x :: m), rest. simpl. rewrite Hp, Hf. repeat split; auto; lia.
Qed.

Lemma rep_lazy_complete p s : forall least (k : str -> option A),
  rep_lazy p least s k = None ->
  forall m rest, s = m ++ rest -> (least <= length m)%nat ->
                 forallb p m = true -> k rest = None.
Proof.
  induction s as [|x s IH]; intros least k H m rest Hs Hl Hf; simpl in H.
  - symmetry in Hs. apply app_eq_nil in Hs. destruct Hs; subst.
    simpl in Hl. destruct least; [assumption|lia].
  - destruct m as [|y m]; simpl in *.
    + subst rest. assert (least = 0%nat) by lia. subst least.
      destruct (k (x :: s)); congruence.
    + inversion Hs; subst y s. apply andb_prop in Hf. destruct Hf as [Hx Hf].
      rewrite Hx in H. destruct least as [|n].
      * destruct (k (x :: m ++ rest)); [discriminate|].
        eapply IH; eauto. lia.
      * eapply IH; eauto. lia.
Qed.

(** Soundness: a result of the matcher comes from a match that the
    pattern denotes. *)
Lemma mt_sound r : forall s c (k : caps -> str -> option A) a,
  mt r s c k = Some a ->
  exists m rest c', s = m ++ rest /\ den r m rest c c' /\ k c' rest = Some a.
Proof.
  induction r as [|p| |r1 IH1 r2 IH2|r1 IH1|g least p|r1 IH1];
    intros s c k a H; simpl in H.
  - exists [], s, c. simpl. auto.
  - destruct s as [|x s]; [discriminate|]. destruct (p x) eqn:Hp; [|discriminate].
    exists [x], s, c. simpl. eauto 6.
  - destruct s; [|discriminate]. exists [], [], c. simpl. auto.
  - apply IH1 in H. destruct H as (m1 & rest1 & c1 & -> & D1 & H).
    apply IH2 in H. destruct H as (m2 & rest & c2 & -> & D2 & H).
    exists (m1 ++ m2), rest, c2. rewrite <- app_assoc. simpl. eauto 10.
  - destruct (mt r1 s c k) eqn:H1.
    + inversion H; subst. apply IH1 in H1.
      destruct H1 as (m & rest & c' & -> & D & Hk).
      exists m, rest, c'. simpl. auto.
    + exists [], s, c. simpl. auto.
  - assert (exists m rest, s = m ++ rest /\ (least <= length m)%nat /\
                           forallb p m = true /\ k c rest = Some a) as Hx.
    { destruct g; [eapply rep_greedy_sound|eapply rep_lazy_sound]; eauto. }
    destruct Hx as (m & rest & -> & Hl & Hf & Hk).
    exists m, rest, c. simpl. auto.
  - apply IH1 in H. destruct H as (m & rest & c1 & -> & D & Hk).
    rewrite consumed_app in Hk.
    exists m, rest, (c1 ++ [m]). simpl. eauto.
Qed.

(** Completeness: when the matcher fails, the continuation fails on
    every match that the pattern denotes. *)
Lemma mt_complete r : forall s c (k : caps -> str -> option A),
  mt r s c k = None ->
  forall m rest c', s = m ++ rest -> den r m rest c c' -> k c' rest = None.
Proof.
  induction r as [|p| |r1 IH1 r2 IH2|r1 IH1|g least p|r1 IH1];
    intros s c k H m rest c' Hs D; simpl in H, D.
  - destruct D; subst. assumption.
  - destruct D as (x & -> & Hp & ->). simpl in Hs. subst s. rewrite Hp in H.
    assumption.
  - destruct D as (-> & -> & ->). simpl in Hs. subst s. assumption.
  - destruct D as (m1 & m2 & c1 & -> & D1 & D2).
    rewrite <- app_assoc in Hs.
    pose proof (IH1 _ _ _ H _ _ _ Hs D1) as H2. simpl in H2.
    eapply IH2; eauto.
  - destruct (mt r1 s c k) eqn:H1; [discriminate|].
    destruct D as [D|[-> ->]].
    + eapply IH1; eauto.
    + simpl in Hs. subst. assumption.
  - destruct D as (Hl & Hf & ->).
    destruct g; [eapply rep_greedy_complete|eapply rep_lazy_complete]; eauto.
  - destruct D as (c1 & D & ->).
    pose proof (IH1 _ _ _ H _ _ _ Hs D) as H2. simpl in H2.
    subst s. rewrite consumed_app in H2. assumption.
Qed.

End Matcher.

Lemma exec_here_sound r s m c :
  exec_here r s = Some (m, c) ->
  exists rest, s = m ++ rest /\ den r m rest [] c.
Proof.
  unfold exec_here. intros H. apply mt_sound in H.
  destruct H as (m' & rest & c' & -> & D & H).
  rewrite consumed_app in H. inversion H; subst. eauto.
Qed.

Lemma exec_here_complete r s :
  exec_here r s = None ->
  forall m rest c, s = m ++ rest -> ~ den r m rest [] c.
Proof.
  unfold exec_here. intros H m rest c Hs D.
  eapply mt_complete in D; eauto. discriminate.
Qed.

(** ** Searching and cutting *)

Lemma exec_here_prefix r s m c :
  exec_here r s = Some (m, c) -> exists rest, s = m ++ rest.
Proof. intros H. apply exec_here_sound in H. destruct H as (rest & ? & _). eauto. Qed.

(** The leftmost match: no match starts before it. *)
Lemma search_sound r s : forall pos b mm,
  search r pos s = Some (b, mm) ->
  exists rest,
    s = b ++ m_full mm ++ rest /\
    m_index mm = (pos + length b)%nat /\
    exec_here r (m_full mm ++ rest) = Some (m_full mm, m_groups mm) /\
    (forall b1 b2, b = b1 ++ b2 -> b2 <> [] ->
                   exec_here r (b2 ++ m_full mm ++ rest) = None).
Proof.
  induction s as [|x s IH]; intros pos b mm H; simpl in H.
  - destruct (exec_here r []) as [[m c]|] eqn:He; [|discriminate].
    inversion H; subst; clear H. simpl.
    destruct (exec_here_prefix _ _ He) as (rest & Hr).
    symmetry in Hr. apply app_eq_nil in Hr. destruct Hr; subst.
    exists []. repeat split; auto.
    intros b1 b2 Hb Hn. symmetry in Hb. apply app_eq_nil in Hb. tauto.
  - destruct (exec_here r (x :: s)) as [[m c]|] eqn:He.
    + inversion H; subst; clear H. simpl.
      destruct (exec_here_prefix _ _ He) as (rest & Hr).
      exists rest. rewrite <- Hr. repeat split; auto.
      intros b1 b2 Hb Hn. symmetry in Hb. apply app_eq_nil in Hb. tauto.
    + destruct (search r (S pos) s) as [[b' m']|] eqn:Hs; [|discriminate].
      inversion H; subst; clear H.
      apply IH in Hs. destruct Hs as (rest & -> & Hi & Hm & Hb).
      exists rest. simpl. repeat split; auto; [lia|].
      intros b1 b2 Heq Hn. destruct b1 as [|y b1]; simpl in Heq.
      * subst b2. exact He.
      * inversion Heq; subst. eapply Hb; eauto.
Qed.

Lemma search_none r s : forall pos,
  search r pos s = None -> forall b t, s = b ++ t -> exec_here r t = None.
Proof.
  induction s as [|x s IH]; intros pos H b t Hs; simpl in H.
  - symmetry in Hs. apply app_eq_nil in Hs. destruct Hs; subst.
    destruct (exec_here r []) as [[m c]|]; [discriminate|reflexivity].
  - destruct (exec_here r (x :: s)) as [[m c]|] eqn:He; [discriminate|].
    destruct (search r (S pos) s) as [[b' m']|] eqn:Hs'; [discriminate|].
    destruct b as [|y b]; simpl in Hs.
    + subst t. exact He.
    + inversion Hs; subst. eapply IH; eauto.
Qed.

(** The segments are a cutting of the text. *)
Lemma scan_src r s : forall skip pos,
  (skip <= length s)%nat -> src_of (scan r skip pos s) = skipn skip s.
Proof.
  induction s as [|x s IH]; intros skip pos Hl.
  - simpl in Hl. assert (skip = 0%nat) by lia. subst. simpl.
    destruct (exec_here r []) as [[m c]|] eqn:He; [|reflexivity].
    destruct (exec_here_prefix _ _ He) as (rest & Hr).
    symmetry in Hr. apply app_eq_nil in Hr. destruct Hr; subst. reflexivity.
  - destruct skip as [|n].
    + cbn [scan skipn].
      destruct (exec_here r (x :: s)) as [[m c]|] eqn:He.
      * destruct (exec_here_prefix _ _ He) as (rest & Hr).
        destruct m as [|y m']; cbn [src_of m_full app].
        -- rewrite IH by lia. reflexivity.
        -- simpl in Hr. inversion Hr; subst. rewrite IH.
           ++ rewrite skipn_app, skipn_all, Nat.sub_diag. reflexivity.
           ++ rewrite length_app. lia.
      * cbn [src_of]. rewrite IH by lia. reflexivity.
    + cbn [scan skipn]. apply IH. simpl in Hl. lia.
Qed.

Lemma scan_src0 r s pos : src_of (scan r 0 pos s) = s.
Proof. rewrite scan_src by lia. reflexivity. Qed.

(** Every match found by the cutting is one the pattern denotes. *)
Lemma scan_hits_den r s : forall skip pos,
  Forall (fun m => exists rest, den r (m_full m) rest [] (m_groups m))
         (hits (scan r skip pos s)).
Proof.
  induction s as [|x s IH]; intros skip pos.
  - destruct skip; simpl; [|constructor].
    destruct (exec_here r []) as [[m c]|] eqn:He; simpl; [|constructor].
    constructor; [|constructor]. simpl.
    apply exec_here_sound in He. destruct He as (rest & _ & D). eauto.
  - destruct skip as [|n]; cbn [scan]; [|apply IH].
    destruct (exec_here r (x :: s)) as [[m c]|] eqn:He.
    + cbn [hits]. constructor.
      * simpl. apply exec_here_sound in He. destruct He as (rest & _ & D). eauto.
      * destruct m; [cbn [hits]|]; apply IH.
    + cbn [hits]. apply IH.
Qed.

Lemma matchAll_den r s :
  Forall (fun m => exists rest, den r (m_full m) rest [] (m_groups m))
         (matchAll r s).
Proof. apply scan_hits_den. Qed.

Lemma hits_nil_keeps l : hits l = [] -> l = map Keep (src_of l).
Proof.
  induction l as [|[c|m] l IH]; simpl; intros H.
  - reflexivity.
  - f_equal. auto.
  - discriminate.
Qed.

(** A text without match is cut into its code units. *)
Lemma matchAll_nil_scan r s : matchAll r s = [] -> scan r 0 0 s = map Keep s.
Proof.
  intros H. apply hits_nil_keeps in H. rewrite scan_src0 in H. exact H.
Qed.

Lemma splice_keeps (S : Type) (f : jsmatch -> S -> str * S) s st :
  splice f (map Keep s) st = (s, st).
Proof.
  induction s as [|x s IH]; simpl; [reflexivity|]. rewrite IH. reflexivity.
Qed.

(** A global replacement leaves a text without match as it is, and its
    callback is not run. *)
Lemma replace_fn_no_match (S : Type) r (f : jsmatch -> S -> str * S) s st :
  matchAll r s = [] -> replace_fn r f s st = (s, st).
Proof.
  intros H. unfold replace_fn. rewrite (matchAll_nil_scan _ _ H).
  apply splice_keeps.
Qed.

(** A template without dollar is inserted as it is. *)
Lemma get_substitution_plain m b a t :
  forallb (fun c => negb (c =? 36)) t = true -> get_substitution m b a t = t.
Proof.
  induction t as [|c t IH]; simpl; intros H; [reflexivity|].
  apply andb_prop in H. destruct H as [Hc Ht].
  destruct (c =? 36); [discriminate|]. rewrite IH by assumption. reflexivity.
Qed.


(** ** Literals *)

Lemma den_Lit l : forall m rest c c',
  den (Lit l) m rest c c' <-> m = l /\ c' = c.
Proof.
  induction l as [|x l IH]; intros m rest c c'; cbn [Lit den].
  - tauto.
  - split.
    + intros (m1 & m2 & c1 & -> & (y & -> & Hy & ->) & D).
      apply IH in D. destruct D; subst. unfold chr_is in Hy.
      apply N.eqb_eq in Hy. subst. auto.
    + intros [-> ->]. exists [x], l, c. repeat split.
      * exists x. unfold chr_is. rewrite N.eqb_refl. auto.
      * apply IH. auto.
Qed.

Arguments Lit : simpl never.

Lemma den_Seq r1 r2 m rest c c' :
  den (Seq r1 r2) m rest c c' <->
  exists m1 m2 c1,
    m = m1 ++ m2 /\ den r1 m1 (m2 ++ rest) c c1 /\ den r2 m2 rest c1 c'.
Proof. reflexivity. Qed.

Lemma den_Group r m rest c c' :
  den (Group r) m rest c c' <-> exists c1, den r m rest c c1 /\ c' = c1 ++ [m].
Proof. reflexivity. Qed.

Lemma den_Opt r m rest c c' :
  den (Opt r) m rest c c' <-> den r m rest c c' \/ (m = [] /\ c' = c).
Proof. reflexivity. Qed.

Lemma den_Rep g n p m rest c c' :
  den (Rep g n p) m rest c c' <->
  (n <= length m)%nat /\ forallb p m = true /\ c' = c.
Proof. reflexivity. Qed.

(** Sequence with a literal in front. *)
Lemma den_Lit_Seq l r m rest c c' :
  den (Seq (Lit l) r) m rest c c' <->
  exists m2, m = l ++ m2 /\ den r m2 rest c c'.
Proof.
  rewrite den_Seq. split.
  - intros (m1 & m2 & c1 & -> & D1 & D2). apply den_Lit in D1.
    destruct D1; subst. eauto.
  - intros (m2 & -> & D). exists l, m2, c. rewrite den_Lit. auto.
Qed.

(** Sequence with a repetition in front. *)
Lemma den_Rep_Seq g n p r m rest c c' :
  den (Seq (Rep g n p) r) m rest c c' <->
  exists m1 m2, m = m1 ++ m2 /\ (n <= length m1)%nat /\
                forallb p m1 = true /\ den r m2 rest c c'.
Proof.
  rewrite den_Seq. cbn [den]. split.
  - intros (m1 & m2 & c1 & -> & (Hl & Hf & ->) & D2). eauto 7.
  - intros (m1 & m2 & -> & Hl & Hf & D). exists m1, m2, c. auto.
Qed.

(** ** Pattern A *)


Lemma splice_ext (S : Type) (f g : jsmatch -> S -> str * S) l :
  (forall m st, f m st = g m st) -> forall st, splice f l st = splice g l st.
Proof.
  intros E. induction l as [|[c|m] l IH]; intros st; simpl.
  - reflexivity.
  - rewrite IH. reflexivity.
  - rewrite E. destruct (g m st) as [rep st1]. rewrite IH. reflexivity.
Qed.


(** A global replacement by a template without dollar. *)
Lemma replace_all_plain r t s :
  forallb (fun c => negb (c =? 36)) t = true ->
  replace_all r t s = render (fun _ => t) (scan r 0 0 s).
Proof.
  intros Ht. unfold replace_all, replace_fn.
  rewrite splice_ext with (g := fun _ (_ : unit) => (t, tt)).
  - generalize (scan r 0 0 s). intros l.
    induction l as [|[c|m] l IH]; simpl.
    + reflexivity.
    + destruct (splice _ l tt). simpl in *. congruence.
    + destruct (splice _ l tt). simpl in *. congruence.
  - intros m []. rewrite get_substitution_plain by assumption. reflexivity.
Qed.






Section PatternA.
Context {P : PathApi}.






End PatternA.



(** ** Running programs *)

Lemma run_bind (A B : Type) (W : World) (p : prog A) (f : A -> prog B) :
  forall s,
    run W (bind_prog p f) s =
    match run W p s with
    | (inr a, s1, tr1) =>
        let '(r, s2, tr2) := run W (f a) s1 in (r, s2, tr1 ++ tr2)
    | (inl e, s1, tr1) => (inl e, s1, tr1)
    end.
Proof.
  induction p as [a|e|X e k IH]; intros s; simpl.
  - destruct (run W (f a) s) as [[r s2] tr2]. reflexivity.
  - reflexivity.
  - destruct (handle W e s) as [x s1]. rewrite IH.
    destruct (run W (k x) s1) as [[[e'|a] s2] tr1]; [reflexivity|].
    destruct (run W (f a) s2) as [[r s3] tr2]. reflexivity.
Qed.

Lemma no_throw_run (A : Type) (W : World) (p : prog A) :
  no_throw p -> forall s, exists a s' tr, run W p s = (inr a, s', tr).
Proof.
  induction p as [a|e|X e k IH]; simpl; intros H s.
  - eauto.
  - contradiction.
  - destruct (handle W e s) as [x s1].
    destruct (IH x (H x) s1) as (a & s' & tr & ->). eauto.
Qed.

Lemma no_throw_try_catch (A : Type) (p : prog A) (h : exn -> prog A) :
  (forall e, no_throw (h e)) -> no_throw (try_catch p h).
Proof. intros Hh. induction p; simpl; auto. Qed.

Lemma no_throw_bind (A B : Type) (p : prog A) (f : A -> prog B) :
  no_throw p -> (forall a, no_throw (f a)) -> no_throw (bind_prog p f).
Proof. intros Hp Hf. induction p; simpl in *; auto; contradiction. Qed.

Lemma no_throw_for_fold (A S : Type) (body : A -> S -> prog S) l :
  (forall a s, no_throw (body a s)) -> forall s, no_throw (for_fold l body s).
Proof.
  intros Hb. induction l as [|x l IH]; intros s; simpl; [exact I|].
  apply no_throw_bind; auto.
Qed.

Section Rewrite.
Context {P : PathApi}.
Variables vaultPath outDir stageRoot : str.

(** The drawing exporter catches whatever its steps throw. *)
Lemma exporter_no_throw mdAbs :
  no_throw (exportTldrawMdToPng vaultPath outDir stageRoot mdAbs).
Proof.
  unfold exportTldrawMdToPng. apply no_throw_try_catch. intros e x. exact I.
Qed.

Lemma tldrawStep_no_throw m tex :
  no_throw (tldrawStep vaultPath outDir stageRoot m tex).
Proof.
  unfold tldrawStep. apply no_throw_bind; [apply exporter_no_throw|].
  intros e. destruct (exportedOk e); exact I.
Qed.

Lemma rewriteRefs_no_throw tex :
  no_throw (rewriteRefs vaultPath outDir stageRoot tex).
Proof.
  unfold rewriteRefs. destruct (rewriteBounded vaultPath tex) as [tex1 toCopy].
  apply no_throw_bind; [|intros; exact I].
  apply no_throw_for_fold. apply tldrawStep_no_throw.
Qed.

(** One step of the Pattern-B loop: the export answers, and the text is
    edited by one first-occurrence replacement of the matched text. *)
Lemma run_tldrawStep (W : World) m tex s :
  exists o s' tr,
    run W (tldrawStep vaultPath outDir stageRoot m tex) s =
    (inr (applyTldraw tex (m, o)), s', tr).
Proof.
  unfold tldrawStep. cbn [bind Monad_prog]. rewrite run_bind.
  destruct (@no_throw_run _ W _
              (exporter_no_throw (path_join [vaultPath; trim (group1 m)])) s)
    as (o & s' & tr & ->).
  exists o, s', tr. unfold applyTldraw, tldrawReplacement. cbn [fst snd].
  destruct (exportedOk o); simpl; rewrite app_nil_r; reflexivity.
Qed.

Lemma run_tldrawLoop (W : World) ms : forall tex s,
  exists outs s' tr,
    length outs = length ms /\
    run W (for_fold ms (tldrawStep vaultPath outDir stageRoot) tex) s =
    (inr (fold_left applyTldraw (combine ms outs) tex), s', tr).
Proof.
  induction ms as [|m ms IH]; intros tex s.
  - exists [], s, []. auto.
  - cbn [for_fold]. rewrite run_bind.
    destruct (run_tldrawStep W m tex s) as (o & s1 & tr1 & ->).
    destruct (IH (applyTldraw tex (m, o)) s1) as (outs & s2 & tr2 & Hl & ->).
    exists (o :: outs), s2, (tr1 ++ tr2). simpl. auto.
Qed.

End Rewrite.

Section RewriteClaims.
Context {P : PathApi}.
Variables vaultPath outDir stageRoot : str.

(** A text with neither pattern is returned as it is, with no task and
    no effect. *)
Lemma rewriteRefs_clean tex :
  matchAll reBounded tex = [] -> matchAll reTldrawEscaped tex = [] ->
  rewriteRefs vaultPath outDir stageRoot tex = Ret (tex, []).
Proof.
  intros HA HB. unfold rewriteRefs, rewriteBounded.
  rewrite replace_fn_no_match by assumption.
  unfold replaceTldraw. rewrite HB. reflexivity.
Qed.

(** C2, as the code has it. The Pattern-A substitution comes first; the
    Pattern-B matches are then collected, once, from the text it
    produced, before any Pattern-B replacement; the loop always
    completes, and performs for each collected match, in order, one
    first-occurrence replacement of the match's full text, whatever its
    index. *)
Theorem C2_tldraw_matches_collected_after_bounded (tex : str) (W : World) (s : St W) :
  let tex1 := fst (rewriteBounded vaultPath tex) in
  let ms := matchAll reTldrawEscaped tex1 in
  (exists outs,
      length outs = length ms /\
      outcome W (rewriteRefs vaultPath outDir stageRoot tex) s =
      inr (fold_left applyTldraw (combine ms outs) tex1,
           snd (rewriteBounded vaultPath tex))) /\
  (forall t m m' o,
      m_full m = m_full m' /\ m_groups m = m_groups m' ->
      applyTldraw t (m, o) = applyTldraw t (m', o)).
Proof.
  intros tex1 ms. split.
  - unfold outcome, rewriteRefs.
    subst tex1 ms. destruct (rewriteBounded vaultPath tex) as [tex1 toCopy].
    cbn [fst snd bind Monad_prog]. rewrite run_bind. unfold replaceTldraw.
    destruct (run_tldrawLoop vaultPath outDir stageRoot W
                (matchAll reTldrawEscaped tex1) tex1 s)
      as (outs & s' & tr & Hl & ->).
    exists outs. split; [assumption|]. reflexivity.
  - intros t m m' o [Hf Hg]. unfold applyTldraw, group1. cbn [fst snd].
    rewrite Hf, Hg. reflexivity.
Qed.

(** C3, as the code has it. When the first pass leaves neither a
    Pattern-A nor a Pattern-B match, a second pass returns the same
    text, records nothing and performs no effect; and a text that has
    neither pattern to begin with comes out of the first pass
    unchanged. *)
Theorem C3_rewrite_twice_when_no_match_remains
    (tex tex1 : str) (toCopy : list AssetCopyTask)
    (W W' : World) (s s1 : St W) (s' : St W') (tr1 : list event) :
  run W (rewriteRefs vaultPath outDir stageRoot tex) s = (inr (tex1, toCopy), s1, tr1) ->
  (matchAll reBounded tex1 = [] -> matchAll reTldrawEscaped tex1 = [] ->
   run W' (rewriteRefs vaultPath outDir stageRoot tex1) s' = (inr (tex1, []), s', [])) /\
  (matchAll reBounded tex = [] -> matchAll reTldrawEscaped tex = [] ->
   tex1 = tex /\ toCopy = [] /\ tr1 = []).
Proof.
  intros H. split; intros HA HB.
  - rewrite rewriteRefs_clean by assumption. reflexivity.
  - rewrite rewriteRefs_clean in H by assumption. simpl in H.
    inversion H; subst. auto.
Qed.

End RewriteClaims.

(** C2, counterexample to the order the claim gives: the matches the
    loop iterates over are those of the text after the Pattern-A
    substitution, not those of the text before it.  In the first text
    the wrapper's closing brace separates [!{[}] from [{[}pictures/...]:
    the text has no Pattern-B match before the substitution, has one
    after it, and the loop replaces it.  In the second, ordinary text
    the placeholder is the same but is found at another index. *)
Lemma C2_counterexample :
  let P := posixPath in
  let tex := lit "\pandocbounded{\includegraphics{pictures/x!{[}}{[}pictures/y.md{]}{]}" in
  let tex' := lit "\pandocbounded{\includegraphics{pictures/a.png}}!{[}{[}pictures/b.md{]}{]}" in
  matchAll reTldrawEscaped tex = [] /\
  matchAll reTldrawEscaped (fst (rewriteBounded (lit "/v") tex)) =
    [MkMatch 45 (lit "!{[}{[}pictures/y.md{]}{]}") [lit "pictures/y.md"]] /\
  outcome simWorld
    (rewriteRefs (lit "/v") (lit "/v/out") (lit "/v/out/__stage__") tex)
    (vault [] []) =
    inr (lit "\includegraphics[width=\linewidth]{pictures/x% [md2overleaf] missing tldraw export for pictures/y.md",
         [{| abs := lit "/v/pictures/x!{["; rel := lit "pictures/x!{[" |}]) /\
  matchAll reTldrawEscaped tex' =
    [MkMatch 48 (lit "!{[}{[}pictures/b.md{]}{]}") [lit "pictures/b.md"]] /\
  matchAll reTldrawEscaped (fst (rewriteBounded (lit "/v") tex')) =
    [MkMatch 50 (lit "!{[}{[}pictures/b.md{]}{]}") [lit "pictures/b.md"]] /\
  matchAll reTldrawEscaped (fst (rewriteBounded (lit "/v") tex)) <>
  matchAll reTldrawEscaped tex.
Proof.
  intros P tex tex'. repeat split; try (vm_compute; reflexivity).
  intros H. vm_compute in H. discriminate.
Qed.

(** C3, counterexample: a wrapper inside a wrapper. The first pass
    rewrites the inner one and leaves no Pattern-B match; the second
    pass finds the outer one and changes the text again. *)
Lemma C3_counterexample :
  let P := posixPath in
  let run2 tex := outcome simWorld
                    (rewriteRefs (lit "/v") (lit "/v/out") (lit "/v/out/__stage__") tex)
                    (vault [] []) in
  let tex := lit "\pandocbounded{\pandocbounded{\includegraphics{pictures/a.png}}}" in
  let tex1 := lit "\pandocbounded{\includegraphics[width=\linewidth]{pictures/a.png}}" in
  let tex2 := lit "\includegraphics[width=\linewidth]{pictures/a.png}" in
  let task := {| abs := lit "/v/pictures/a.png"; rel := lit "pictures/a.png" |} in
  run2 tex = inr (tex1, [task]) /\
  matchAll reTldrawEscaped tex1 = [] /\
  run2 tex1 = inr (tex2, [task]) /\
  tex2 <> tex1.
Proof.
  intros P run2 tex tex1 tex2 task. split; [|split; [|split]].
  - vm_compute. reflexivity.
  - vm_compute. reflexivity.
  - vm_compute. reflexivity.
  - intros H. vm_compute in H. discriminate.
Qed.

(** C3, an instance: a wrapper and a missing drawing; after one pass no
    pattern remains and a second pass changes nothing. *)
Lemma C3_witness :
  let P := posixPath in
  let tex1 := lit "\includegraphics[width=\linewidth]{pictures/a.png} % [md2overleaf] missing tldraw export for pictures/b.md" in
  run simWorld (rewriteRefs (lit "/v") (lit "/v/out") (lit "/v/out/__stage__") tex1)
    (vault [] []) = (inr (tex1, []), vault [] [], []).
Proof.
  intros P tex1.
  refine (proj1 (@C3_rewrite_twice_when_no_match_remains P
            (lit "/v") (lit "/v/out") (lit "/v/out/__stage__")
            (lit "\pandocbounded{\includegraphics{pictures/a.png}} !{[}{[}pictures/b.md{]}{]}")
            tex1 _ simWorld simWorld (vault [] []) _ (vault [] []) _ _) _ _);
    vm_compute; reflexivity.
Defined.

(** ** Single effects *)

Lemma run_call (W : World) (X : Type) (e : eff (exn + X)) (s : St W) :
  run W (call e) s = (fst (handle W e s), snd (handle W e s), [Ev e (fst (handle W e s))]).
Proof.
  unfold call. simpl. destruct (handle W e s) as [[x|v] s1]; reflexivity.
Qed.

Lemma run_emit (W : World) (X : Type) (e : eff X) (s : St W) :
  run W (emit e) s = (inr (fst (handle W e s)), snd (handle W e s), [Ev e (fst (handle W e s))]).
Proof.
  unfold emit. simpl. destruct (handle W e s) as [x s1]. reflexivity.
Qed.

(** ** The copy loop *)

Section CopyLoop.
Context {P : PathApi}.
Variable W : World.
Variable stageRoot : str.

Lemma run_copyTask t s :
  all_succeeded (trace W (copyTask stageRoot t) s) = true ->
  exists present s',
    run W (copyTask stageRoot t) s = (inr tt, s', copyEvents stageRoot (t, present)).
Proof.
  unfold trace, copyTask, copyEvents. cbn [bind Monad_prog].
  rewrite run_bind, run_call.
  destruct (handle W (EnsureDir (path_dirname (path_join [stageRoot; rel t]))) s)
    as [[e|[]] s1]; cbn [fst snd]; [intros H; discriminate H|].
  rewrite run_bind, run_emit.
  destruct (handle W (PathExists (abs t)) s1) as [present s2]; cbn [fst snd].
  destruct present.
  - rewrite run_call.
    destruct (handle W (Copy (abs t) (path_join [stageRoot; rel t])) s2)
      as [[e|[]] s3]; cbn [fst snd app]; [intros H; discriminate H|].
    intros _. exists true, s3. reflexivity.
  - rewrite run_emit.
    destruct (handle W (Console LWarn [lit "[md2overleaf] missing referenced image:"; abs t]) s2)
      as [[] s3]; cbn [fst snd app].
    intros _. exists false, s3. reflexivity.
Qed.

Lemma all_succeeded_app tr1 tr2 :
  all_succeeded (tr1 ++ tr2) = all_succeeded tr1 && all_succeeded tr2.
Proof. apply forallb_app. Qed.

Lemma trace_bind_ok (A B : Type) (p : prog A) (f : A -> prog B) s :
  all_succeeded (trace W (bind_prog p f) s) = true ->
  all_succeeded (trace W p s) = true.
Proof.
  unfold trace. rewrite run_bind.
  destruct (run W p s) as [[[e|a] s1] tr1]; cbn [snd]; [auto|].
  destruct (run W (f a) s1) as [[r s2] tr2]. cbn [snd].
  rewrite all_succeeded_app. intros H. apply andb_prop in H. tauto.
Qed.

Lemma run_copyAssets toCopy : forall s,
  all_succeeded (trace W (copyAssets stageRoot toCopy) s) = true ->
  exists answers s',
    length answers = length toCopy /\
    run W (copyAssets stageRoot toCopy) s =
    (inr tt, s', flat_map (copyEvents stageRoot) (combine toCopy answers)).
Proof.
  induction toCopy as [|t l IH]; intros s H.
  - exists [], s. auto.
  - unfold copyAssets in *. cbn [for_each] in *.
    pose proof (trace_bind_ok _ _ _ H) as H1.
    destruct (run_copyTask _ _ H1) as (b & s1 & E1).
    unfold trace in H. rewrite run_bind, E1 in H. rewrite run_bind, E1.
    destruct (run W (for_each l (copyTask stageRoot)) s1) as [[r s2] tr2] eqn:E2.
    cbn [snd] in H. rewrite all_succeeded_app in H. apply andb_prop in H.
    destruct H as [_ H2].
    destruct (IH s1) as (bs & s2' & Hl & E).
    { unfold trace. rewrite E2. exact H2. }
    rewrite E in E2. inversion E2; subst.
    exists (b :: bs), s2. split; [simpl; congruence|]. reflexivity.
Qed.

(** C5. In a run of the copy loop and of the write that follows it in
    which no file operation throws: every task is handled, in order;
    for each one the existence of the source is checked, and the copy is
    made after that check and only when it answered yes; a source that
    is not there gets a warning and the loop goes on with the next task;
    the loop ends normally and the rewritten text is written. *)
Theorem C5_missing_source_is_skipped
    (stagedTexPath tex : str) (toCopy : list AssetCopyTask) (s : St W) :
  all_succeeded (trace W (stageAssets stageRoot stagedTexPath toCopy tex) s) = true ->
  exists answers,
    length answers = length toCopy /\
    outcome W (stageAssets stageRoot stagedTexPath toCopy tex) s = inr tt /\
    trace W (stageAssets stageRoot stagedTexPath toCopy tex) s =
    flat_map (copyEvents stageRoot) (combine toCopy answers) ++
    [Ev (WriteFile stagedTexPath tex) (inr tt)].
Proof.
  unfold stageAssets. cbn [bind Monad_prog]. intros H.
  pose proof (trace_bind_ok _ _ _ H) as H1.
  destruct (run_copyAssets _ _ H1) as (bs & s1 & Hl & E).
  exists bs. split; [assumption|].
  unfold outcome, trace in *. rewrite run_bind, E in *. rewrite run_call in *.
  destruct (handle W (WriteFile stagedTexPath tex) s1) as [[e|[]] s2];
    cbn [fst snd] in *.
  - rewrite all_succeeded_app in H. apply andb_prop in H. destruct H as [_ H].
    discriminate H.
  - auto.
Qed.

End CopyLoop.

(** ** Greedy repetition in front of a continuation that cannot fail *)

Lemma take_drop_while p s : take_while p s ++ drop_while p s = s.
Proof.
  induction s as [|x s IH]; simpl; [reflexivity|].
  destruct (p x); simpl; [rewrite IH|]; reflexivity.
Qed.

Lemma take_while_all p s : forallb p (take_while p s) = true.
Proof.
  induction s as [|x s IH]; simpl; [reflexivity|].
  destruct (p x) eqn:E; simpl; [rewrite E, IH|]; reflexivity.
Qed.

Lemma drop_while_head p s :
  match drop_while p s with [] => True | x :: _ => p x = false end.
Proof.
  induction s as [|x s IH]; simpl; [exact I|].
  destruct (p x) eqn:E; [exact IH|exact E].
Qed.

Lemma rep_greedy_total (A : Type) p s : forall n (k : str -> option A),
  (forall t, k t <> None) ->
  rep_greedy p n s k =
  if (n <=? length (take_while p s))%nat then k (drop_while p s) else None.
Proof.
  induction s as [|x s IH]; intros n k Hk; simpl.
  - destruct n; reflexivity.
  - destruct (p x) eqn:E.
    + rewrite IH by assumption. simpl length.
      destruct n as [|n]; simpl Nat.pred.
      * simpl. destruct (k (drop_while p s)) eqn:Ek; [reflexivity|].
        exfalso. eapply Hk; eauto.
      * change (S n <=? S (length (take_while p s)))%nat
          with (n <=? length (take_while p s))%nat.
        destruct (n <=? length (take_while p s))%nat; [|reflexivity].
        destruct (k (drop_while p s)) eqn:Ek; [reflexivity|].
        exfalso. eapply Hk; eauto.
    + destruct n; reflexivity.
Qed.

(** ** The upload URL *)

Lemma den_reUploadHead m rest c :
  den reUploadHead m rest [] c <->
  c = [] /\ (m = lit "http://bashupload.app/" \/ m = lit "https://bashupload.app/").
Proof.
  unfold reUploadHead. rewrite den_Lit_Seq. split.
  - intros (m2 & -> & D). rewrite den_Seq in D.
    destruct D as (o & m3 & c1 & -> & Do & D3). apply den_Lit in D3.
    destruct D3 as [-> ->]. rewrite den_Opt in Do.
    destruct Do as [Do|[-> ->]].
    + apply den_Lit in Do. destruct Do as [-> ->]. auto.
    + auto.
  - intros (-> & [-> | ->]).
    + exists (lit "://bashupload.app/"). split; [reflexivity|].
      rewrite den_Seq. exists [], (lit "://bashupload.app/"), [].
      split; [reflexivity|]. split; [rewrite den_Opt; auto|].
      apply den_Lit. auto.
    + exists (lit "s://bashupload.app/"). split; [reflexivity|].
      rewrite den_Seq. exists (lit "s"), (lit "://bashupload.app/"), [].
      split; [reflexivity|]. split; [rewrite den_Opt; left; apply den_Lit; auto|].
      apply den_Lit. auto.
Qed.

Lemma den_reUploadUrl m rest c :
  den reUploadUrl m rest [] c <-> c = [] /\ is_upload_url m.
Proof.
  unfold is_upload_url. split.
  - intros D. unfold reUploadUrl in D.
    rewrite den_Lit_Seq in D. destruct D as (m2 & -> & D).
    rewrite den_Seq in D. destruct D as (o & m3 & c1 & -> & Do & D).
    rewrite den_Lit_Seq in D. destruct D as (w & -> & D).
    rewrite den_Rep in D. destruct D as (Hl & Hf & ->).
    assert (c1 = [] /\ (o = [] \/ o = lit "s")) as [-> Ho].
    { rewrite den_Opt in Do. destruct Do as [Do|[-> ->]]; [|auto].
      apply den_Lit in Do. destruct Do as [-> ->]. auto. }
    split; [reflexivity|]. exists w. split.
    + destruct Ho as [-> | ->]; auto.
    + split; [|assumption]. destruct w; [simpl in Hl; lia|discriminate].
  - intros (-> & w & Hu & Hw & Hf).
    assert (Hl : (1 <= length w)%nat) by (destruct w; [congruence|simpl; lia]).
    unfold reUploadUrl. rewrite den_Lit_Seq. destruct Hu as [-> | ->].
    + exists (lit "://bashupload.app/" ++ w). split; [reflexivity|].
      rewrite den_Seq. exists [], (lit "://bashupload.app/" ++ w), [].
      split; [reflexivity|]. split; [rewrite den_Opt; auto|].
      rewrite den_Lit_Seq. exists w. split; [reflexivity|].
      rewrite den_Rep. auto.
    + exists (lit "s://bashupload.app/" ++ w). split; [reflexivity|].
      rewrite den_Seq. exists (lit "s"), (lit "://bashupload.app/" ++ w), [].
      split; [reflexivity|]. split; [rewrite den_Opt; left; apply den_Lit; auto|].
      rewrite den_Lit_Seq. exists w. split; [reflexivity|].
      rewrite den_Rep. auto.
Qed.

(** The match of the URL pattern runs to the next white space. *)
Lemma exec_here_reUploadUrl_maximal s m c :
  exec_here reUploadUrl s = Some (m, c) ->
  exists rest, s = m ++ rest /\
               match rest with [] => True | x :: _ => is_space x = true end.
Proof.
  unfold exec_here.
  change (mt reUploadUrl s [] (fun c rest => Some (consumed s rest, c)))
    with (mt reUploadHead s []
            (fun c s' => rep_greedy not_space 1 s'
                           (fun rest => Some (consumed s rest, c)))).
  intros H. apply mt_sound in H.
  destruct H as (m0 & rest0 & c0 & -> & _ & H).
  rewrite rep_greedy_total in H by discriminate.
  destruct (1 <=? length (take_while not_space rest0))%nat; [|discriminate].
  inversion H; subst; clear H.
  exists (drop_while not_space rest0).
  rewrite <- (take_drop_while not_space rest0) at 1 2.
  rewrite app_assoc, consumed_app. split; [reflexivity|].
  pose proof (drop_while_head not_space rest0) as Hd.
  destruct (drop_while not_space rest0); [exact I|].
  unfold not_space in Hd. apply negb_false_iff in Hd. exact Hd.
Qed.

Lemma trim_start_id s :
  match s with [] => True | x :: _ => is_space x = false end -> trim_start s = s.
Proof. destruct s as [|x s]; simpl; [reflexivity|]. intros ->. reflexivity. Qed.

(** [trim] leaves a text without white space as it is. *)
Lemma trim_no_space s : forallb not_space s = true -> trim s = s.
Proof.
  intros H. unfold trim. rewrite (trim_start_id s).
  - rewrite trim_start_id; [apply rev_involutive|].
    assert (Hr : forallb not_space (rev s) = true).
    { rewrite forallb_forall in *. intros x Hx. apply H. apply in_rev. exact Hx. }
    destruct (rev s) as [|x t]; [exact I|]. simpl in Hr.
    apply andb_prop in Hr. destruct Hr as [Hx _]. unfold not_space in Hx.
    apply negb_true_iff in Hx. exact Hx.
  - destruct s as [|x t]; [exact I|]. simpl in H.
    apply andb_prop in H. destruct H as [Hx _]. unfold not_space in Hx.
    apply negb_true_iff in Hx. exact Hx.
Qed.

Lemma upload_url_no_space u : is_upload_url u -> forallb not_space u = true.
Proof.
  intros (w & [-> | ->] & _ & Hf); rewrite forallb_app, Hf; reflexivity.
Qed.

Lemma js_match_some r s m :
  js_match r s = Some m ->
  exists before after,
    s = before ++ m_full m ++ after /\ length before = m_index m /\
    exec_here r (m_full m ++ after) = Some (m_full m, m_groups m) /\
    (forall b1 b2, before = b1 ++ b2 -> b2 <> [] ->
                   exec_here r (b2 ++ m_full m ++ after) = None).
Proof.
  unfold js_match. destruct (search r 0 s) as [[b m']|] eqn:E; [|discriminate].
  intros H. inversion H; subst. apply search_sound in E.
  destruct E as (rest & Hs & Hi & He & Hb). exists b, rest. auto.
Qed.

Lemma js_match_none r s :
  js_match r s = None -> forall before t, s = before ++ t -> exec_here r t = None.
Proof.
  unfold js_match. destruct (search r 0 s) as [[b m']|] eqn:E; [discriminate|].
  intros _. eapply search_none. exact E.
Qed.

(** C7. When the upload ended without error: if the output has a URL of
    the upload host, the leftmost one is taken, up to the next white
    space, and the callback logs the deep link, which is the editor's
    address followed by [?snip_uri=], the URL as found, [&engine=xelatex]
    and [&name=] with the base name, nothing encoded, and opens it when
    [autoOpen] is set; if the output has no such URL, the callback
    reports it with a notice of its own and neither logs nor opens a
    link. *)
Theorem C7_upload_callback (settings : Md2OverleafSettings) (base : str)
    (r : ExecResult) :
  exec_err r = None ->
  match js_match reUploadUrl (exec_stdout r) with
  | Some m =>
      let url := m_full m in
      is_upload_url url /\
      (exists before after,
          exec_stdout r = before ++ url ++ after /\
          match after with [] => True | x :: _ => is_space x = true end /\
          forall b1 b2 u rest,
            before = b1 ++ b2 -> b2 <> [] -> b2 ++ url ++ after = u ++ rest ->
            ~ is_upload_url u) /\
      onUploaded settings base r =
      (emit (Console LLog [[55356; 57151] ++ lit " Overleaf URL:"; deepLink url base]) ;;
       if autoOpen settings then
         emit (OpenUrl (deepLink url base)) ;;
         emit (Notice (lit "Opening in Overleaf..."))
       else emit (Notice (lit "Upload complete. See console for Overleaf URL.")))%monad
  | None =>
      (forall before u after,
          exec_stdout r = before ++ u ++ after -> ~ is_upload_url u) /\
      onUploaded settings base r =
      (emit (Console LError [lit "Could not find URL in output:"; exec_stdout r]) ;;
       emit (Notice (lit "Upload finished, but no URL found in output.")))%monad /\
      forall (W : World) (s : St W),
        opened (trace W (onUploaded settings base r) s) = [] /\
        console (trace W (onUploaded settings base r) s) =
          [(LError, [lit "Could not find URL in output:"; exec_stdout r])] /\
        notices (trace W (onUploaded settings base r) s) =
          [lit "Upload finished, but no URL found in output."]
  end.
Proof.
  intros Herr. destruct (js_match reUploadUrl (exec_stdout r)) as [m|] eqn:E.
  - destruct (js_match_some _ _ E) as (before & after & Hs & _ & He & Hb).
    assert (Hu : is_upload_url (m_full m)).
    { apply exec_here_sound in He. destruct He as (rest & _ & D).
      apply den_reUploadUrl in D. tauto. }
    cbv zeta. split; [exact Hu|]. split.
    + exists before, after. split; [exact Hs|]. split.
      * apply exec_here_reUploadUrl_maximal in He.
        destruct He as (rest & Hr & Hm). apply app_inv_head in Hr. subst. exact Hm.
      * intros b1 b2 u rest Hb12 Hn Hsplit Hu'.
        eapply exec_here_complete; [eapply Hb; eauto|exact Hsplit|].
        apply den_reUploadUrl. split; [reflexivity|exact Hu'].
    + unfold onUploaded. rewrite Herr, E.
      rewrite (trim_no_space _ (upload_url_no_space Hu)). reflexivity.
  - split.
    + intros before u after Hs Hu.
      eapply exec_here_complete;
        [eapply js_match_none; [exact E|exact Hs]|reflexivity|].
      apply den_reUploadUrl. split; [reflexivity|exact Hu].
    + unfold onUploaded. rewrite Herr, E. split; [reflexivity|].
      intros W s. unfold trace. simpl.
      destruct (handle W _ s) as [[] s1]. destruct (handle W _ s1) as [[] s2].
      simpl. auto.
Qed.

(** ** Title derivation *)

Lemma exec_here_Rep1 p s :
  exec_here (Rep true 1 p) s =
  match s with
  | x :: s' => if p x then Some (x :: take_while p s', []) else None
  | [] => None
  end.
Proof.
  unfold exec_here. cbn [mt]. rewrite rep_greedy_total by discriminate.
  destruct s as [|x s']; [reflexivity|]. simpl take_while. simpl drop_while.
  destruct (p x); [|reflexivity]. simpl.
  rewrite <- (take_drop_while p s') at 1.
  change (x :: take_while p s' ++ drop_while p s')
    with ((x :: take_while p s') ++ drop_while p s').
  rewrite consumed_app. reflexivity.
Qed.

(** A global replacement of the runs of [p] by one space. *)
Lemma render_scan_runs p s : forall pos,
  render (fun _ => [32]) (scan (Rep true 1 p) 0 pos s) = squeeze p false s /\
  render (fun _ => [32]) (scan (Rep true 1 p) (length (take_while p s)) pos s)
  = squeeze p true s.
Proof.
  induction s as [|x s IH]; intros pos.
  - split; reflexivity.
  - assert (HA : render (fun _ => [32]) (scan (Rep true 1 p) 0 pos (x :: s))
                 = squeeze p false (x :: s)).
    { cbn [scan]. rewrite exec_here_Rep1. cbn [squeeze].
      destruct (p x); cbn [render app].
      - rewrite (proj2 (IH (S pos))). reflexivity.
      - rewrite (proj1 (IH (S pos))). reflexivity. }
    split; [exact HA|].
    cbn [take_while squeeze]. destruct (p x) eqn:E.
    + cbn [length scan]. apply IH.
    + cbn [length]. rewrite HA. cbn [squeeze]. rewrite E. reflexivity.
Qed.

Lemma replace_runs p s :
  replace_all (Rep true 1 p) (lit " ") s = squeeze p false s.
Proof.
  rewrite replace_all_plain by reflexivity. apply render_scan_runs.
Qed.

Lemma squeeze_removes p s : p 32 = false -> forall b,
  forallb (fun c => negb (p c)) (squeeze p b s) = true.
Proof.
  intros H32. induction s as [|x s IH]; intros b; simpl; [reflexivity|].
  destruct (p x) eqn:E.
  - destruct b; simpl; [apply IH|]. rewrite H32. simpl. apply IH.
  - simpl. rewrite E. simpl. apply IH.
Qed.

Lemma squeeze_keeps q p s : q 32 = true -> forallb q s = true -> forall b,
  forallb q (squeeze p b s) = true.
Proof.
  intros H32. induction s as [|x s IH]; intros H b; simpl; [reflexivity|].
  simpl in H. apply andb_prop in H. destruct H as [Hx Hs].
  destruct (p x).
  - destruct b; simpl; [auto|]. rewrite H32. simpl. auto.
  - simpl. rewrite Hx. simpl. auto.
Qed.

Lemma squeeze_space_head s : head_not_space (squeeze is_space true s) = true.
Proof.
  induction s as [|x s IH]; simpl; [reflexivity|].
  destruct (is_space x) eqn:E; [exact IH|]. simpl. unfold not_space.
  rewrite E. reflexivity.
Qed.

Lemma squeeze_space_single s : forall b,
  single_spaced (squeeze is_space b s) = true.
Proof.
  induction s as [|x s IH]; intros b; simpl; [reflexivity|].
  destruct (is_space x) eqn:E.
  - destruct b; [apply IH|]. cbn [single_spaced].
    rewrite squeeze_space_head, IH. reflexivity.
  - cbn [single_spaced]. rewrite E, IH. reflexivity.
Qed.

(** [trim] keeps a contiguous part of the text. *)
Lemma trim_start_suffix s : exists t, s = t ++ trim_start s.
Proof.
  induction s as [|x s (t & IH)]; simpl.
  - exists []. reflexivity.
  - destruct (is_space x).
    + exists (x :: t). simpl. congruence.
    + exists []. reflexivity.
Qed.

Lemma trim_start_head s : head_not_space (trim_start s) = true.
Proof.
  induction s as [|x s IH]; simpl; [reflexivity|].
  destruct (is_space x) eqn:E; [exact IH|]. simpl. unfold not_space.
  rewrite E. reflexivity.
Qed.

Lemma trim_end_prefix s : exists t, s = trim_end s ++ t.
Proof.
  unfold trim_end. destruct (trim_start_suffix (rev s)) as (t & H).
  exists (rev t). rewrite <- rev_app_distr, <- H. symmetry. apply rev_involutive.
Qed.

Lemma trim_eq s : trim s = trim_end (trim_start s).
Proof. reflexivity. Qed.

Lemma single_spaced_suffix a b : single_spaced (a ++ b) = true -> single_spaced b = true.
Proof.
  induction a as [|x a IH]; simpl; [auto|]. intros H.
  apply andb_prop in H. destruct H as [_ H]. auto.
Qed.

Lemma single_spaced_prefix a b : single_spaced (a ++ b) = true -> single_spaced a = true.
Proof.
  induction a as [|x a IH]; simpl; [auto|]. intros H.
  apply andb_prop in H. destruct H as [Hx H]. rewrite (IH H), andb_true_r.
  destruct (is_space x); [|reflexivity].
  apply andb_prop in Hx. destruct Hx as [-> Hn]. simpl.
  destruct a; [reflexivity|exact Hn].
Qed.

Lemma forallb_trim q s : forallb q s = true -> forallb q (trim s) = true.
Proof.
  intros H. rewrite trim_eq.
  destruct (trim_start_suffix s) as (t1 & H1).
  destruct (trim_end_prefix (trim_start s)) as (t2 & H2).
  rewrite H1, forallb_app in H. apply andb_prop in H. destruct H as [_ H].
  rewrite H2, forallb_app in H. apply andb_prop in H. tauto.
Qed.

Lemma single_spaced_trim s : single_spaced s = true -> single_spaced (trim s) = true.
Proof.
  intros H. rewrite trim_eq.
  destruct (trim_start_suffix s) as (t1 & H1).
  destruct (trim_end_prefix (trim_start s)) as (t2 & H2).
  rewrite H1 in H. apply single_spaced_suffix in H.
  rewrite H2 in H. apply single_spaced_prefix in H. exact H.
Qed.

Lemma trim_head s : head_not_space (trim s) = true.
Proof.
  rewrite trim_eq. pose proof (trim_start_head s) as H.
  destruct (trim_end_prefix (trim_start s)) as (t2 & H2).
  destruct (trim_end (trim_start s)) as [|x u]; [reflexivity|].
  rewrite H2 in H. exact H.
Qed.

Lemma trim_last s : head_not_space (rev (trim s)) = true.
Proof.
  unfold trim. rewrite rev_involutive. apply trim_start_head.
Qed.

(** What [/\.tex$/i] denotes: a dot and the three letters, in either
    case, at the very end. *)
Lemma den_reTexExt m rest c :
  den reTexExt m rest [] c <->
  c = [] /\ rest = [] /\
  exists t e x, m = [46; t; e; x] /\ (t = 116 \/ t = 84) /\
                (e = 101 \/ e = 69) /\ (x = 120 \/ x = 88).
Proof.
  unfold reTexExt. cbn [den]. unfold chr_is. split.
  - intros (m1 & m2 & c1 & -> & (d & -> & Hd & ->) &
            m3 & m4 & c2 & -> & (t & -> & Ht & ->) &
            m5 & m6 & c3 & -> & (e & -> & He & ->) &
            m7 & m8 & c4 & -> & (x & -> & Hx & ->) & -> & -> & ->).
    apply N.eqb_eq in Hd. subst d.
    apply orb_prop in Ht, He, Hx. rewrite !N.eqb_eq in Ht, He, Hx.
    repeat split. exists t, e, x. repeat split; intuition congruence.
  - intros (-> & -> & t & e & x & -> & Ht & He & Hx).
    exists [46], [t; e; x], []. repeat split; [exists 46; auto|].
    exists [t], [e; x], []. repeat split.
    { exists t. repeat split. apply orb_true_iff. rewrite !N.eqb_eq.
      intuition congruence. }
    exists [e], [x], []. repeat split.
    { exists e. repeat split. apply orb_true_iff. rewrite !N.eqb_eq.
      intuition congruence. }
    exists [x], [], []. repeat split.
    exists x. repeat split. apply orb_true_iff. rewrite !N.eqb_eq.
    intuition congruence.
Qed.

Lemma baseNoExt_strips b ext :
  (exists t e x, ext = [46; t; e; x] /\ (t = 116 \/ t = 84) /\
                 (e = 101 \/ e = 69) /\ (x = 120 \/ x = 88)) ->
  baseNoExt (b ++ ext) = b.
Proof.
  intros Hext. unfold baseNoExt, replace_first.
  destruct (search reTexExt 0 (b ++ ext)) as [[before m]|] eqn:E.
  - apply search_sound in E. destruct E as (rest & Hs & _ & He & _).
    apply exec_here_sound in He. destruct He as (rest' & Hr & D).
    apply app_inv_head in Hr. subst rest'.
    apply den_reTexExt in D. destruct D as (_ & -> & t & e & x & Hm & _).
    rewrite app_nil_r in Hs. rewrite Hs, <- length_app, skipn_all. simpl.
    rewrite app_nil_r. destruct Hext as (t' & e' & x' & -> & _).
    rewrite Hm in Hs.
    apply (f_equal (@rev char)) in Hs. rewrite !rev_app_distr in Hs.
    simpl in Hs. inversion Hs as [[H1 H2 H3 H4]].
    apply (f_equal (@rev char)) in H4. rewrite !rev_involutive in H4. auto.
  - exfalso. eapply exec_here_complete.
    + eapply search_none; [exact E|reflexivity].
    + symmetry. apply app_nil_r.
    + apply den_reTexExt. split; [reflexivity|]. split; [reflexivity|]. exact Hext.
Qed.

(** C8. The derived title is the base name without a final [.tex], with
    each run of hyphens and underscores turned into one space, each run
    of white space turned into one space, and trimmed: it has no hyphen
    or underscore, its only white space is single spaces, and it neither
    begins nor ends with one.  The two names of the specification give
    the titles it states. *)
Theorem C8_title_derivation :
  niceTitle (lit "My_Great-Paper") = lit "My Great Paper" /\
  niceTitle (lit "a--b__c") = lit "a b c" /\
  (forall b, baseNoExt (b ++ lit ".tex") = b) /\
  forall base,
    niceTitle base =
      trim (squeeze is_space false (squeeze is_sep false (baseNoExt base))) /\
    forallb (fun c => negb (is_sep c)) (niceTitle base) = true /\
    single_spaced (niceTitle base) = true /\
    head_not_space (niceTitle base) = true /\
    head_not_space (rev (niceTitle base)) = true.
Proof.
  split; [vm_compute; reflexivity|]. split; [vm_compute; reflexivity|].
  split.
  { intros b. apply baseNoExt_strips. exists 116, 101, 120. auto. }
  intros base.
  assert (E : niceTitle base =
              trim (squeeze is_space false (squeeze is_sep false (baseNoExt base)))).
  { unfold niceTitle, reSpaces, reSeparators. rewrite !replace_runs. reflexivity. }
  split; [exact E|]. rewrite E. split; [|split; [|split]].
  - apply forallb_trim. apply squeeze_keeps; [reflexivity|].
    apply squeeze_removes. reflexivity.
  - apply single_spaced_trim. apply squeeze_space_single.
  - apply trim_head.
  - apply trim_last.
Qed.

(** ** String replacement *)

Lemma strip_prefix_sound p : forall s r, strip_prefix p s = Some r -> s = p ++ r.
Proof.
  induction p as [|x p IH]; intros s r H; simpl in H.
  - inversion H. reflexivity.
  - destruct s as [|y s]; [discriminate|].
    destruct (x =? y) eqn:E; [|discriminate]. apply N.eqb_eq in E. subst y.
    simpl. f_equal. auto.
Qed.

Lemma strip_prefix_app p r : strip_prefix p (p ++ r) = Some r.
Proof.
  induction p as [|x p IH]; simpl; [reflexivity|]. rewrite N.eqb_refl. exact IH.
Qed.

Lemma split_at_first_sound pat s : forall b a,
  split_at_first pat s = Some (b, a) -> s = b ++ pat ++ a.
Proof.
  induction s as [|x s IH]; intros b a H; simpl in H.
  - destruct (strip_prefix pat []) eqn:E; [|discriminate].
    inversion H; subst. apply strip_prefix_sound in E. exact E.
  - destruct (strip_prefix pat (x :: s)) eqn:E.
    + inversion H; subst. apply strip_prefix_sound in E. exact E.
    + destruct (split_at_first pat s) as [[b' a']|]; [|discriminate].
      inversion H; subst. simpl. f_equal. auto.
Qed.

Lemma split_at_first_none pat s :
  split_at_first pat s = None -> forall b a, s <> b ++ pat ++ a.
Proof.
  induction s as [|x s IH]; intros H b a Hs; simpl in H.
  - destruct (strip_prefix pat []) eqn:E; [discriminate|].
    destruct b; [|discriminate]. simpl in Hs. rewrite Hs, strip_prefix_app in E.
    discriminate.
  - destruct (strip_prefix pat (x :: s)) eqn:E; [discriminate|].
    destruct (split_at_first pat s) as [[b' a']|] eqn:E'; [discriminate|].
    destruct b as [|y b]; simpl in Hs.
    + rewrite Hs, strip_prefix_app in E. discriminate.
    + inversion Hs; subst. eapply IH; eauto.
Qed.

(** A template without the placeholder is returned as it is. *)
Lemma expand_absent vaultPath p :
  (forall b a, p <> b ++ lit "${vault}" ++ a) -> expand vaultPath p = p.
Proof.
  intros H. unfold expand, replace_str.
  destruct (split_at_first (lit "${vault}") p) as [[b a]|] eqn:E; [|reflexivity].
  apply split_at_first_sound in E. exfalso. eapply H; eauto.
Qed.

(** A root path without dollar takes the place of the first
    placeholder. *)
Lemma expand_plain vaultPath p :
  forallb (fun c => negb (c =? 36)) vaultPath = true ->
  expand vaultPath p = p \/
  exists b a, p = b ++ lit "${vault}" ++ a /\ expand vaultPath p = b ++ vaultPath ++ a.
Proof.
  intros H. unfold expand, replace_str.
  destruct (split_at_first (lit "${vault}") p) as [[b a]|] eqn:E; [|auto].
  right. exists b, a. split; [apply split_at_first_sound; exact E|].
  rewrite get_substitution_plain by assumption. reflexivity.
Qed.

(** C9, the failing input: a root path with two dollars in a row. The
    replacement string of [String.prototype.replace] is a template, and
    the two dollars come out as one. *)
Lemma C9_dollar_in_root_path :
  expand (lit "/a$$b") (lit "${vault}/mdtex.sh") = lit "/a$b/mdtex.sh" /\
  expand (lit "/a$$b") (lit "${vault}/mdtex.sh") <> lit "/a$$b" ++ lit "/mdtex.sh" /\
  expand (lit "/R$&D") (lit "${vault}/mdtex.sh") = lit "/R${vault}D/mdtex.sh".
Proof.
  split; [vm_compute; reflexivity|]. split; [|vm_compute; reflexivity].
  intros H. vm_compute in H. discriminate.
Qed.

(** ** The subprocesses of the pipeline *)

Lemma all_exec_bind (A B : Type) Q (p : prog A) (f : A -> prog B) :
  all_exec Q p -> (forall a, all_exec Q (f a)) -> all_exec Q (bind_prog p f).
Proof.
  intros Hp Hf. induction p as [a|e|X e k IH]; simpl in *; auto.
  destruct Hp as [He Hk]. split; auto.
Qed.

Lemma all_exec_try_catch (A : Type) Q (p : prog A) (h : exn -> prog A) :
  all_exec Q p -> (forall e, all_exec Q (h e)) -> all_exec Q (try_catch p h).
Proof.
  intros Hp Hh. induction p as [a|e|X e k IH]; simpl in *; auto.
  destruct Hp as [He Hk]. split; auto.
Qed.

Lemma all_exec_for_each (A : Type) Q (l : list A) (body : A -> prog unit) :
  (forall a, all_exec Q (body a)) -> all_exec Q (for_each l body).
Proof.
  intros H. induction l as [|x l IH]; simpl; [exact I|].
  apply all_exec_bind; auto.
Qed.

Lemma all_exec_for_fold (A S : Type) Q (l : list A) (body : A -> S -> prog S) :
  (forall a s, all_exec Q (body a s)) -> forall s, all_exec Q (for_fold l body s).
Proof.
  intros H. induction l as [|x l IH]; intros s; simpl; [exact I|].
  apply all_exec_bind; auto.
Qed.

Lemma all_exec_run (A : Type) Q (W : World) (p : prog A) :
  all_exec Q p -> forall s,
  Forall (fun co => Q (fst co) (snd co)) (execs (trace W p s)).
Proof.
  unfold trace. induction p as [a|e|X e k IH]; simpl; intros H s.
  - constructor.
  - constructor.
  - destruct H as [He Hk]. destruct (handle W e s) as [x s1].
    specialize (IH x (Hk x) s1). destruct (run W (k x) s1) as [[r s2] tr].
    simpl in *. destruct e; auto.
Qed.

Lemma all_exec_emit (X : Type) Q (e : eff X) :
  match e with Exec c o => Q c o | _ => True end -> all_exec Q (emit e).
Proof. intros H. simpl. split; [exact H|]. intros x. exact I. Qed.

Lemma all_exec_call (X : Type) Q (e : eff (exn + X)) :
  match e with Exec c o => Q c o | _ => True end -> all_exec Q (call e).
Proof. intros H. simpl. split; [exact H|]. intros [x|x]; exact I. Qed.

(** Walks through a program, bind by bind; what remains to be proved is
    [Q] at each awaited subprocess. *)
Ltac exec_walk :=
  repeat first
    [ exact I
    | progress cbn [bind ret Monad_prog catch Exc_prog]
    | apply all_exec_bind; [|intros ?]
    | apply all_exec_emit; cbv beta iota
    | apply all_exec_call; exact I
    | apply all_exec_for_each; intros ?
    | apply all_exec_for_fold; intros ? ?
    | apply all_exec_try_catch; [|intros ?]
    | match goal with |- all_exec _ (match ?x with _ => _ end) => destruct x end ].

Section Subprocesses.
Context {P : PathApi}.

(** The pipeline starts two kinds of awaited subprocess and no other:
    the converter, always as [./mdtex.sh -v "<file>"] in the vault, and
    the upload, always as [curl bashupload.app -T "<base>.zip"] after a
    [cd] into the output directory.  Neither depends on the settings. *)
Lemma pipeline_all_exec settings :
  all_exec pipeline_exec (exportToOverleaf settings).
Proof.
  unfold exportToOverleaf, onConverted, onUploaded, stageTex, stageAssets,
    rewriteRefs, replaceTldraw, tldrawStep, copyAssets, copyTask,
    exportTldrawMdToPng.
  exec_walk.
  - left. eexists. eexists. split; reflexivity.
  - right. eexists. eexists. split; reflexivity.
Qed.

End Subprocesses.

Section Settings.
Context {P : PathApi}.

(** C10. Two settings records that differ only in [uploadHost] give the
    same program, hence the same run in every world: the upload command
    is always [curl bashupload.app -T "<base>.zip"], run after a [cd]
    into the output directory, and the URL taken from its output is
    always one of [bashupload.app]. *)
Theorem C10_uploadHost_is_ignored (s1 s2 : Md2OverleafSettings) :
  scriptPath s1 = scriptPath s2 -> autoOpen s1 = autoOpen s2 ->
  (forall (W : World) (s : St W),
      run W (exportToOverleaf s1) s = run W (exportToOverleaf s2) s) /\
  (forall (W : World) (s : St W),
      Forall (fun co => pipeline_exec (fst co) (snd co))
             (execs (trace W (exportToOverleaf s1) s))) /\
  (forall outDir base,
      uploadCmd outDir base =
      lit "cd " ++ dq ++ outDir ++ dq ++ lit " && " ++
      lit "curl bashupload.app -T " ++ dq ++ base ++ lit ".zip" ++ dq) /\
  (forall stdout m,
      js_match reUploadUrl stdout = Some m -> is_upload_url (m_full m)).
Proof.
  intros Hs Ha. split; [|split; [|split]].
  - assert (E : exportToOverleaf s1 = exportToOverleaf s2).
    { destruct s1, s2. simpl in *. subst. reflexivity. }
    intros W s. rewrite E. reflexivity.
  - intros W s. apply all_exec_run. apply pipeline_all_exec.
  - intros outDir base. unfold uploadCmd.
    change (lit " && curl bashupload.app -T ")
      with (lit " && " ++ lit "curl bashupload.app -T ").
    rewrite <- app_assoc. reflexivity.
  - intros stdout m H. destruct (js_match_some _ _ H) as (b & a & _ & _ & He & _).
    apply exec_here_sound in He. destruct He as (rest & _ & D).
    apply den_reUploadUrl in D. tauto.
Qed.

End Settings.

(** C10, an instance: the default settings and the same with another
    upload host. *)
Lemma C10_witness :
  let P := posixPath in
  let other := {| scriptPath := scriptPath DEFAULT_SETTINGS;
                  uploadHost := lit "https://upload.example";
                  autoOpen := autoOpen DEFAULT_SETTINGS |} in
  let w := vault [(lit "/v/.md2overleaf/Notes/Notes.tex", lit "text")] [] in
  run simWorld (exportToOverleaf DEFAULT_SETTINGS) w =
  run simWorld (exportToOverleaf other) w.
Proof.
  intros P other w.
  exact (proj1 (@C10_uploadHost_is_ignored P DEFAULT_SETTINGS other
                  eq_refl eq_refl) simWorld w).
Defined.

(** C6, the failing input: a configured script other than the default.
    The converter is started as [./mdtex.sh], in the vault; the expanded
    [scriptPath] is computed and left unused. *)
Lemma C6_converter_command_ignores_scriptPath :
  let P := posixPath in
  let settings := {| scriptPath := lit "${vault}/tools/convert.sh";
                     uploadHost := lit "https://transfer.sh";
                     autoOpen := true |} in
  let tr := trace simWorld (exportToOverleaf settings) (vault [] []) in
  hd_error (execs tr) =
    Some (lit "./mdtex.sh -v " ++ dq ++ lit "/v/Notes.md" ++ dq,
          {| cwd := Some (lit "/v"); shell := lit "/bin/bash";
             env := Some [fixedPath] |}) /\
  expand (lit "/v") (scriptPath settings) = lit "/v/tools/convert.sh" /\
  option_map fst (hd_error (execs tr)) <>
    Some (expand (lit "/v") (scriptPath settings) ++
          lit " -v " ++ dq ++ lit "/v/Notes.md" ++ dq).
Proof.
  intros P settings tr. split; [vm_compute; reflexivity|].
  split; [vm_compute; reflexivity|].
  intros H. vm_compute in H. discriminate.
Qed.

(** ** The drawing exporter *)

Lemma run_try_catch (A : Type) (W : World) (p : prog A) (h : exn -> prog A) :
  forall s,
    run W (try_catch p h) s =
    match run W p s with
    | (inl e, s1, tr1) =>
        let '(r, s2, tr2) := run W (h e) s1 in (r, s2, tr1 ++ tr2)
    | (inr a, s1, tr1) => (inr a, s1, tr1)
    end.
Proof.
  induction p as [a|e|X e k IH]; intros s; simpl.
  - reflexivity.
  - destruct (run W (h e) s) as [[r s2] tr2]. reflexivity.
  - destruct (handle W e s) as [x s1]. rewrite IH.
    destruct (run W (k x) s1) as [[[e'|a] s2] tr1]; [|reflexivity].
    destruct (run W (h e') s2) as [[r s3] tr2]. reflexivity.
Qed.

Section Exporter.
Context {P : PathApi}.
Variables vaultPath outDir stageRoot : str.
Variable W : World.

(** The exporter never throws: whatever the world answers, it returns,
    and it returns [null] as soon as one of its steps has thrown or the
    document has no fenced drawing block. *)
Lemma exporter_never_throws mdAbs s :
  exists r,
    outcome W (exportTldrawMdToPng vaultPath outDir stageRoot mdAbs) s = inr r /\
    (all_succeeded (trace W (exportTldrawMdToPng vaultPath outDir stageRoot mdAbs) s)
       = false -> r = None) /\
    (forall src, fst (handle W (ReadFile mdAbs) s) = inr src ->
                 js_match reTldrawFence src = None -> r = None).
Proof.
  unfold outcome, trace, exportTldrawMdToPng.
  cbn [catch Exc_prog bind ret Monad_prog].
  rewrite run_try_catch, run_bind, run_call.
  destruct (handle W (ReadFile mdAbs) s) as [[e|src] s1]; cbn [fst snd].
  { rewrite run_bind, run_emit. cbn. eexists. split; [reflexivity|].
    split; [reflexivity|]. intros src H. discriminate H. }
  destruct (js_match reTldrawFence src) as [m|] eqn:Em.
  2:{ cbn. eexists. split; [reflexivity|]. split; [|reflexivity].
      intros H. discriminate H. }
  rewrite run_bind, run_call.
  destruct (handle W (EnsureDir _) s1) as [[e|[]] s2]; cbn [fst snd].
  { rewrite run_bind, run_emit. cbn. eexists. split; [reflexivity|].
    split; [reflexivity|]. intros src' H. inversion H; subst. congruence. }
  rewrite run_bind, run_call.
  destruct (handle W (WriteFile _ _) s2) as [[e|[]] s3]; cbn [fst snd].
  { rewrite run_bind, run_emit. cbn. eexists. split; [reflexivity|].
    split; [reflexivity|]. intros src' H. inversion H; subst. congruence. }
  rewrite run_bind, run_call.
  destruct (handle W (Spawn _ _) s3) as [[e|[]] s4]; cbn [fst snd].
  { rewrite run_bind, run_emit. cbn. eexists. split; [reflexivity|].
    split; [reflexivity|]. intros src' H. inversion H; subst. congruence. }
  rewrite run_bind, run_call.
  destruct (handle W (Remove _) s4) as [[e|[]] s5]; cbn [fst snd].
  { rewrite run_bind, run_emit. cbn. eexists. split; [reflexivity|].
    split; [reflexivity|]. intros src' H. inversion H; subst. congruence. }
  cbn. eexists. split; [reflexivity|]. split.
  - intros H. discriminate H.
  - intros src' H. inversion H; subst. congruence.
Qed.

End Exporter.

(** Where the export failed and the path has no dollar, the first
    occurrence of the placeholder becomes the comment on that path. *)
Lemma tldraw_fallback (m : jsmatch) (tex before after : str) :
  tex = before ++ m_full m ++ after ->
  forallb (fun c => negb (c =? 36)) (group1 m) = true ->
  exists b a,
    tex = b ++ m_full m ++ a /\
    applyTldraw tex (m, None) = b ++ missingComment (trim (group1 m)) ++ a.
Proof.
  intros Ht Hd. unfold applyTldraw, tldrawReplacement, replace_str.
  cbn [fst snd exportedOk].
  destruct (split_at_first (m_full m) tex) as [[b a]|] eqn:E.
  - exists b, a. split; [apply split_at_first_sound; exact E|].
    rewrite get_substitution_plain; [reflexivity|].
    unfold missingComment. rewrite forallb_app. apply andb_true_intro.
    split; [reflexivity|]. apply forallb_trim. exact Hd.
  - exfalso. eapply split_at_first_none; eauto.
Qed.

(** A match found by the cutting is a part of the text. *)
Lemma hit_occurs r s : forall skip pos m,
  In m (hits (scan r skip pos s)) -> exists b a, s = b ++ m_full m ++ a.
Proof.
  induction s as [|x s IH]; intros skip pos m H.
  - destruct skip; simpl in H; [|contradiction].
    destruct (exec_here r []) as [[f c]|] eqn:E; simpl in H; [|contradiction].
    destruct H as [<-|[]]. simpl. apply exec_here_prefix in E.
    destruct E as (rest & E). exists [], rest. exact E.
  - destruct skip as [|n]; cbn [scan] in H.
    + destruct (exec_here r (x :: s)) as [[f c]|] eqn:E.
      * cbn [hits] in H. destruct H as [<-|H].
        -- simpl. apply exec_here_prefix in E. destruct E as (rest & E).
           exists [], rest. exact E.
        -- assert (In m (hits (scan r (match f with [] => 0 | _ :: f' => length f' end)
                                  (S pos) s))) as H'.
           { destruct f; [cbn [hits] in H|]; exact H. }
           apply IH in H'. destruct H' as (b & a & ->). exists (x :: b), a. reflexivity.
      * cbn [hits] in H. apply IH in H. destruct H as (b & a & ->).
        exists (x :: b), a. reflexivity.
    + apply IH in H. destruct H as (b & a & ->). exists (x :: b), a. reflexivity.
Qed.

(** What Pattern B denotes: the placeholder around a path that begins
    with [pictures/], ends with [.md] and has no brace. *)
Lemma den_reTldrawEscaped m rest c :
  den reTldrawEscaped m rest [] c ->
  exists x,
    c = [lit "pictures/" ++ x ++ lit ".md"] /\
    m = lit "!{[}{[}" ++ (lit "pictures/" ++ x ++ lit ".md") ++ lit "{]}{]}" /\
    x <> [] /\ forallb (fun c => chr_not 123 c && chr_not 125 c) x = true.
Proof.
  unfold reTldrawEscaped. rewrite den_Lit_Seq. intros (m1 & -> & D).
  rewrite den_Seq in D. destruct D as (g & m2 & c1 & -> & Dg & D).
  apply den_Lit in D. destruct D as [-> ->].
  rewrite den_Group in Dg. destruct Dg as (c2 & Dg & ->).
  rewrite den_Lit_Seq in Dg. destruct Dg as (m3 & -> & Dg).
  rewrite den_Rep_Seq in Dg. destruct Dg as (x & m4 & -> & Hl & Hf & Dg).
  apply den_Lit in Dg. destruct Dg as [-> ->].
  exists x. repeat split; auto. destruct x; [simpl in Hl; lia|discriminate].
Qed.

Lemma trim_ends s :
  head_not_space s = true -> head_not_space (rev s) = true -> trim s = s.
Proof.
  intros H1 H2. unfold trim. rewrite (trim_start_id s).
  - rewrite trim_start_id; [apply rev_involutive|].
    destruct (rev s) as [|x t]; [exact I|]. simpl in H2. unfold not_space in H2.
    apply negb_true_iff in H2. exact H2.
  - destruct s as [|x t]; [exact I|]. simpl in H1. unfold not_space in H1.
    apply negb_true_iff in H1. exact H1.
Qed.

(** [match[1].trim()] does nothing to a captured path. *)
Lemma trim_tldraw_path x :
  trim (lit "pictures/" ++ x ++ lit ".md") = lit "pictures/" ++ x ++ lit ".md".
Proof.
  apply trim_ends; [reflexivity|].
  rewrite !rev_app_distr. reflexivity.
Qed.

Section Fallback.
Context {P : PathApi}.
Variables vaultPath outDir stageRoot : str.
Variable W : World.

(** A text with one Pattern-B placeholder whose path has no dollar and
    whose export fails: the placeholder, and nothing else, becomes the
    comment on that path. *)
Lemma fallback_single_match tex m s :
  matchAll reBounded tex = [] ->
  matchAll reTldrawEscaped tex = [m] ->
  forallb (fun c => negb (c =? 36)) (group1 m) = true ->
  outcome W (exportTldrawMdToPng vaultPath outDir stageRoot
               (path_join [vaultPath; group1 m])) s = inr None ->
  exists b a,
    tex = b ++ m_full m ++ a /\
    outcome W (rewriteRefs vaultPath outDir stageRoot tex) s =
    inr (b ++ missingComment (group1 m) ++ a, []).
Proof.
  intros HA HB Hd Hx.
  assert (Hin : In m (matchAll reTldrawEscaped tex)) by (rewrite HB; left; reflexivity).
  destruct (hit_occurs _ _ _ _ _ Hin) as (b0 & a0 & Ht).
  assert (Htrim : trim (group1 m) = group1 m).
  { pose proof (matchAll_den reTldrawEscaped tex) as Hden. rewrite HB in Hden.
    inversion Hden as [|? ? (rest & D) _]; subst.
    apply den_reTldrawEscaped in D. destruct D as (x & Hc & _).
    unfold group1. rewrite Hc. apply trim_tldraw_path. }
  destruct (tldraw_fallback m _ _ Ht Hd) as (b & a & Hs & Happ).
  exists b, a. split; [exact Hs|].
  unfold outcome, rewriteRefs, rewriteBounded in *.
  rewrite replace_fn_no_match by exact HA.
  cbn [bind Monad_prog]. rewrite run_bind. unfold replaceTldraw. rewrite HB.
  cbn [for_fold]. rewrite !run_bind. unfold tldrawStep.
  cbn [bind Monad_prog]. rewrite run_bind. rewrite Htrim.
  destruct (run W (exportTldrawMdToPng vaultPath outDir stageRoot
                     (path_join [vaultPath; group1 m])) s) as [[r s1] tr1].
  cbn [fst] in Hx. subst r. cbn [exportedOk ret Monad_prog run fst snd].
  unfold applyTldraw, tldrawReplacement in Happ. cbn [fst snd exportedOk] in Happ.
  rewrite Htrim in Happ. rewrite Happ. reflexivity.
Qed.

End Fallback.

(** C4, the failing input: a drawing whose path has two dollars in a
    row, and which cannot be read. The exporter returns [null] without
    throwing, and the comment that replaces the placeholder names
    [pictures/a$b.md], not the target [pictures/a$$b.md]. *)
Lemma C4_dollar_in_drawing_path :
  let P := posixPath in
  let v := lit "/v" in
  let out := lit "/v/.md2overleaf/Notes" in
  let stage := lit "/v/.md2overleaf/Notes/__stage__" in
  let tex := lit "see !{[}{[}pictures/a$$b.md{]}{]}" in
  map group1 (matchAll reTldrawEscaped tex) = [lit "pictures/a$$b.md"] /\
  outcome simWorld (exportTldrawMdToPng v out stage (lit "/v/pictures/a$$b.md"))
    (vault [] []) = inr None /\
  outcome simWorld (rewriteRefs v out stage tex) (vault [] []) =
    inr (lit "see % [md2overleaf] missing tldraw export for pictures/a$b.md", []) /\
  includes (lit "see % [md2overleaf] missing tldraw export for pictures/a$b.md")
    (missingComment (lit "pictures/a$$b.md")) = false /\
  includes (lit "see % [md2overleaf] missing tldraw export for pictures/a$b.md")
    (lit "\includegraphics") = false.
Proof.
  intros P v out stage tex. repeat split; vm_compute; reflexivity.
Qed.

(** C5, an instance: two tasks, the first with no source. The first gets
    a warning, the second is copied, the text is written. *)
Lemma C5_witness :
  let P := posixPath in
  let stage := lit "/v/out/__stage__" in
  let staged := lit "/v/out/__stage__/Notes.tex" in
  let gone := {| abs := lit "/v/pictures/gone.png"; rel := lit "pictures/gone.png" |} in
  let here := {| abs := lit "/v/pictures/b.png"; rel := lit "pictures/b.png" |} in
  let w := vault [(lit "/v/pictures/b.png", lit "PNG")] [] in
  exists answers,
    length answers = 2%nat /\
    outcome simWorld (stageAssets stage staged [gone; here] (lit "text")) w = inr tt /\
    trace simWorld (stageAssets stage staged [gone; here] (lit "text")) w =
    flat_map (copyEvents stage) (combine [gone; here] answers) ++
    [Ev (WriteFile staged (lit "text")) (inr tt)].
Proof.
  intros P stage staged gone here w.
  apply (@C5_missing_source_is_skipped P simWorld stage staged (lit "text")
           [gone; here] w).
  vm_compute. reflexivity.
Defined.

(** C7, an instance: the output of a successful upload. *)
Lemma C7_witness :
  let r := {| exec_err := None;
              exec_stdout := lit "done: https://bashupload.app/abc123 (1.2MB)";
              exec_stderr := [] |} in
  let url := lit "https://bashupload.app/abc123" in
  onUploaded DEFAULT_SETTINGS (lit "Notes") r =
  (emit (Console LLog [[55356; 57151] ++ lit " Overleaf URL:";
                       deepLink url (lit "Notes")]) ;;
   emit (OpenUrl (deepLink url (lit "Notes"))) ;;
   emit (Notice (lit "Opening in Overleaf...")))%monad.
Proof.
  intros r url.
  exact (proj2 (proj2 (@C7_upload_callback DEFAULT_SETTINGS (lit "Notes") r eq_refl))).
Defined.

(** ** A whole export

    The note [Notes.md], converted to a text with one wrapper on an
    image that is there and one placeholder on a drawing with a payload:
    both become canonical directives in the staged text, the template
    gets the title and the inclusion, and the deep link is opened. *)
Example export_end_to_end :
  let P := posixPath in
  let w := vault
    [(lit "/v/.md2overleaf/Notes/Notes.tex",
      lit "A \pandocbounded{\includegraphics[keepaspectratio]{pictures/diagram.png}} B !{[}{[}pictures/Sketch.md{]}{]}");
     (lit "/v/pictures/diagram.png", lit "PNG");
     (lit "/v/pictures/Sketch.md", lit "```tldraw" ++ [10] ++ lit "{}" ++ [10] ++ lit "```");
     (lit "/v/main.tex", lit "\title{T}\include{x}");
     (lit "/v/config.tex", lit "cfg")]
    (lit "done: https://bashupload.app/abc123 (1.2MB)") in
  let tr := trace simWorld (exportToOverleaf DEFAULT_SETTINGS) w in
  outcome simWorld (exportToOverleaf DEFAULT_SETTINGS) w = inr tt /\
  writes tr =
    [(lit "/v/.md2overleaf/Notes/Sketch.tldr", lit "{}" ++ [10]);
     (lit "/v/.md2overleaf/Notes/__stage__/Notes.tex",
      lit "A \includegraphics[width=\linewidth]{pictures/diagram.png} B \includegraphics[width=\linewidth]{pictures/Sketch.png}");
     (lit "/v/.md2overleaf/Notes/__stage__/main.tex",
      lit "\title{Notes}\include{Notes}")] /\
  opened tr =
    [lit "https://www.overleaf.com/docs?snip_uri=https://bashupload.app/abc123&engine=xelatex&name=Notes"].
Proof.
  intros P w tr. repeat split; vm_compute; reflexivity.
Qed.

(* ===================================================================== *)
(** * Part III: further properties of the code *)
(* ===================================================================== *)

(** ** [expand] *)

Lemma split_at_first_leftmost pat s : forall b a,
  split_at_first pat s = Some (b, a) -> first_occurrence pat b a.
Proof.
  unfold first_occurrence.
  induction s as [|x s IH]; intros b a H b1 b2 r Hb Hn Heq; simpl in H.
  - destruct (strip_prefix pat []) eqn:E; [|discriminate].
    injection H as <- <-. symmetry in Hb. apply app_eq_nil in Hb. tauto.
  - destruct (strip_prefix pat (x :: s)) eqn:E.
    + injection H as <- <-. symmetry in Hb. apply app_eq_nil in Hb. tauto.
    + destruct (split_at_first pat s) as [[b' a']|] eqn:E'; [|discriminate].
      injection H as <- <-.
      pose proof (split_at_first_sound _ _ E') as Hs.
      destruct b1 as [|y b1]; simpl in Hb.
      * rewrite <- Hb in Heq. simpl in Heq. rewrite <- Hs in Heq.
        rewrite Heq, strip_prefix_app in E. discriminate.
      * injection Hb as <- Hb. eapply (IH _ _ eq_refl b1 b2 r); eauto.
Qed.

Lemma split_at_first_complete pat : forall b a,
  first_occurrence pat b a -> split_at_first pat (b ++ pat ++ a) = Some (b, a).
Proof.
  unfold first_occurrence.
  induction b as [|x b IH]; intros a H.
  - simpl app. destruct (pat ++ a) eqn:E; simpl; rewrite <- ?E;
      rewrite strip_prefix_app; reflexivity.
  - simpl app. cbn [split_at_first].
    destruct (strip_prefix pat (x :: b ++ pat ++ a)) as [l|] eqn:E.
    + apply strip_prefix_sound in E. exfalso.
      apply (H [] (x :: b) l); [reflexivity|discriminate|exact E].
    + rewrite IH; [reflexivity|].
      intros b1 b2 r Hb Hn. apply (H (x :: b1) b2 r); [|exact Hn].
      simpl. congruence.
Qed.

(** X1. [expand] on its two ordinary cases.  A template in which the
    placeholder does not occur is returned as it is, whatever the root
    path.  When the root path has no dollar, the first occurrence of the
    placeholder, and only that one, is replaced by the root path: what
    stands before and after it, later placeholders included, is kept. *)
Theorem X1_expand (vaultPath p : str) :
  ((forall b a, p <> b ++ vaultPlaceholder ++ a) -> expand vaultPath p = p) /\
  (no_dollar vaultPath = true ->
   forall b a,
     p = b ++ vaultPlaceholder ++ a -> first_occurrence vaultPlaceholder b a ->
     expand vaultPath p = b ++ vaultPath ++ a).
Proof.
  split.
  - apply expand_absent.
  - intros Hd b a -> Hf. unfold expand, replace_str.
    fold vaultPlaceholder. rewrite (split_at_first_complete Hf).
    rewrite get_substitution_plain by exact Hd. reflexivity.
Qed.

(** X1, an instance: a template with two placeholders; the second one
    stays. *)
Lemma X1_witness :
  expand (lit "/home/me/vault") (lit "${vault}/bin/${vault}.sh") =
  lit "/home/me/vault" ++ lit "/bin/${vault}.sh".
Proof.
  refine (proj2 (X1_expand (lit "/home/me/vault") (lit "${vault}/bin/${vault}.sh"))
            eq_refl [] (lit "/bin/${vault}.sh") eq_refl _).
  unfold first_occurrence. intros b1 b2 r Hb Hn.
  symmetry in Hb. apply app_eq_nil in Hb. tauto.
Defined.

(** ** Replacing the leftmost match *)

Lemma skipn_app_exact (A : Type) (l1 l2 : list A) n :
  n = length l1 -> skipn n (l1 ++ l2) = l2.
Proof.
  intros ->. rewrite skipn_app, skipn_all, Nat.sub_diag. reflexivity.
Qed.

Lemma replace_first_absent r templ s :
  (forall b d a c, s = b ++ d ++ a -> ~ den r d a [] c) ->
  replace_first r templ s = s.
Proof.
  intros H. unfold replace_first.
  destruct (search r 0 s) as [[b m]|] eqn:E; [|reflexivity].
  apply search_sound in E. destruct E as (rest & Hs & _ & He & _).
  apply exec_here_sound in He. destruct He as (rest' & Hr & D).
  apply app_inv_head in Hr. subst rest'. exfalso. eapply H; eauto.
Qed.

Lemma replace_first_leftmost r templ b d a c :
  no_dollar templ = true ->
  den r d a [] c ->
  (forall d' a' c', d ++ a = d' ++ a' -> den r d' a' [] c' -> d' = d) ->
  (forall b1 b2 d' a' c',
      b = b1 ++ b2 -> b2 <> [] -> b2 ++ d ++ a = d' ++ a' -> ~ den r d' a' [] c') ->
  replace_first r templ (b ++ d ++ a) = b ++ templ ++ a.
Proof.
  intros Ht D Hu Hl. unfold replace_first.
  destruct (search r 0 (b ++ d ++ a)) as [[b0 m]|] eqn:E.
  - apply search_sound in E. destruct E as (rest & Hs & _ & He & Hb).
    pose proof He as He'. apply exec_here_sound in He'.
    destruct He' as (rest' & Hr & D0). apply app_inv_head in Hr. subst rest'.
    assert (b0 = b) as ->.
    { apply app_eq_app in Hs. destruct Hs as (l & [[H1 H2]|[H1 H2]]).
      - destruct l as [|y l]; [rewrite app_nil_r in H1; auto|].
        exfalso.
        apply (Hl b0 (y :: l) (m_full m) rest (m_groups m) H1);
          [discriminate|symmetry; exact H2|exact D0].
      - destruct l as [|y l]; [rewrite app_nil_r in H1; auto|].
        exfalso. eapply exec_here_complete.
        + eapply (Hb b (y :: l)); [exact H1|discriminate].
        + rewrite <- H2. reflexivity.
        + exact D. }
    apply app_inv_head in Hs.
    assert (m_full m = d) as Hm by (eapply Hu; eauto).
    rewrite Hm in Hs |- *. apply app_inv_head in Hs. subst rest.
    rewrite get_substitution_plain by exact Ht.
    do 2 f_equal. rewrite <- length_app, (app_assoc b d a).
    apply skipn_app_exact. reflexivity.
  - exfalso. eapply exec_here_complete.
    + eapply search_none; [exact E|reflexivity].
    + reflexivity.
    + exact D.
Qed.

(** ** The title and inclusion directives of the template *)

Lemma span_unique (p : char -> bool) x : forall u u' t t',
  forallb p u = true -> forallb p u' = true -> p x = false ->
  u ++ x :: t = u' ++ x :: t' -> u = u' /\ t = t'.
Proof.
  induction u as [|y u IH]; intros [|y' u'] t t' Hu Hu' Hx H; simpl in *.
  - inversion H. auto.
  - inversion H; subst. apply andb_prop in Hu'. destruct Hu'. congruence.
  - inversion H; subst. apply andb_prop in Hu. destruct Hu. congruence.
  - inversion H; subst. apply andb_prop in Hu, Hu'.
    destruct Hu, Hu'. destruct (IH u' t t') as [-> ->]; auto.
Qed.

Lemma den_directive name d rest c :
  den (Lit name ;; Rep true 0 is_space ;; Lit (lit "{") ;;
       Rep true 0 (chr_not 125) ;; Lit (lit "}"))%re d rest [] c <->
  c = [] /\ is_directive name d.
Proof.
  unfold is_directive. rewrite den_Lit_Seq. split.
  - intros (m1 & -> & D). rewrite den_Rep_Seq in D.
    destruct D as (ws & m2 & -> & _ & Hws & D).
    rewrite den_Lit_Seq in D. destruct D as (m3 & -> & D).
    rewrite den_Rep_Seq in D. destruct D as (arg & m4 & -> & _ & Ha & D).
    apply den_Lit in D. destruct D as [-> ->]. split; [reflexivity|].
    exists ws, arg. auto.
  - intros (-> & ws & arg & -> & Hws & Ha).
    eexists. split; [reflexivity|].
    rewrite den_Rep_Seq. exists ws. eexists. split; [reflexivity|].
    split; [lia|]. split; [exact Hws|].
    rewrite den_Lit_Seq. eexists. split; [reflexivity|].
    rewrite den_Rep_Seq. exists arg. eexists. split; [reflexivity|].
    split; [lia|]. split; [exact Ha|]. apply den_Lit. auto.
Qed.

Lemma directive_unique name d d' a a' :
  is_directive name d -> is_directive name d' -> d ++ a = d' ++ a' -> d' = d.
Proof.
  intros (ws & arg & -> & Hws & Ha) (ws' & arg' & -> & Hws' & Ha') H.
  rewrite <- !app_assoc in H. apply app_inv_head in H.
  change (lit "{") with [123] in *. change (lit "}") with [125] in *.
  simpl in H.
  destruct (span_unique is_space 123 ws ws' _ _ Hws Hws' eq_refl H) as [-> H1].
  destruct (span_unique (chr_not 125) 125 arg arg' _ _ Ha Ha' eq_refl H1) as [-> _].
  reflexivity.
Qed.

Lemma patch_absent r name templ s :
  (forall d rest c, den r d rest [] c <-> c = [] /\ is_directive name d) ->
  (forall b d a, s = b ++ d ++ a -> ~ is_directive name d) ->
  replace_first r templ s = s.
Proof.
  intros Hden H. apply replace_first_absent. intros b d a c Hs D.
  apply Hden in D. destruct D as [_ D]. eapply H; eauto.
Qed.

Lemma patch_leftmost r name templ b d a :
  (forall d rest c, den r d rest [] c <-> c = [] /\ is_directive name d) ->
  no_dollar templ = true ->
  is_directive name d -> no_directive_before name b d a ->
  replace_first r templ (b ++ d ++ a) = b ++ templ ++ a.
Proof.
  intros Hden Ht Hd Hb. apply replace_first_leftmost with (c := []).
  - exact Ht.
  - apply Hden. auto.
  - intros d' a' c' Heq D. apply Hden in D. destruct D as [_ D].
    eapply directive_unique; eauto.
  - intros b1 b2 d' a' c' H1 H2 H3 D. apply Hden in D. destruct D as [_ D].
    eapply Hb; eauto.
Qed.

Lemma den_reTitle d rest c :
  den reTitle d rest [] c <-> c = [] /\ is_directive (lit "\title") d.
Proof. apply den_directive. Qed.

Lemma den_reInclude d rest c :
  den reInclude d rest [] c <-> c = [] /\ is_directive (lit "\include") d.
Proof. apply den_directive. Qed.

Lemma no_dollar_wrap pre s :
  no_dollar pre = true -> no_dollar s = true ->
  no_dollar (pre ++ s ++ lit "}") = true.
Proof.
  unfold no_dollar. intros H1 H2. rewrite !forallb_app.
  apply andb_true_intro. split; [exact H1|].
  apply andb_true_intro. split; [exact H2|reflexivity].
Qed.

(** X2. The two patches of [main.tex].  A template without a [\title]
    directive (the name, white space, and braces around anything up to
    the first closing brace) is left as it is; otherwise, when the title
    has no dollar, the leftmost such directive becomes [\title{<title>}]
    and the rest of the template is kept.  The same holds for
    [\include] and the base name. *)
Theorem X2_patch_directives (title noExt titletex : str) :
  ((forall b d a, titletex = b ++ d ++ a -> ~ is_directive (lit "\title") d) ->
   patchTitle title titletex = titletex) /\
  (no_dollar title = true ->
   forall b d a,
     titletex = b ++ d ++ a -> is_directive (lit "\title") d ->
     no_directive_before (lit "\title") b d a ->
     patchTitle title titletex = b ++ (lit "\title{" ++ title ++ lit "}") ++ a) /\
  ((forall b d a, titletex = b ++ d ++ a -> ~ is_directive (lit "\include") d) ->
   patchInclude noExt titletex = titletex) /\
  (no_dollar noExt = true ->
   forall b d a,
     titletex = b ++ d ++ a -> is_directive (lit "\include") d ->
     no_directive_before (lit "\include") b d a ->
     patchInclude noExt titletex = b ++ (lit "\include{" ++ noExt ++ lit "}") ++ a).
Proof.
  unfold patchTitle, patchInclude. repeat split.
  - apply patch_absent. apply den_reTitle.
  - intros Ht b d a -> Hd Hb. eapply patch_leftmost; eauto.
    + apply den_reTitle.
    + apply no_dollar_wrap; [reflexivity|exact Ht].
  - apply patch_absent. apply den_reInclude.
  - intros Ht b d a -> Hd Hb. eapply patch_leftmost; eauto.
    + apply den_reInclude.
    + apply no_dollar_wrap; [reflexivity|exact Ht].
Qed.

(** X2, an instance: a comment sign, a title directive with a space
    before its brace, and an inclusion. *)
Lemma X2_witness :
  patchTitle (lit "My Paper") (lit "%\title {Old}\include{x}") =
  lit "%" ++ (lit "\title{" ++ lit "My Paper" ++ lit "}") ++ lit "\include{x}".
Proof.
  refine (proj1 (proj2 (X2_patch_directives (lit "My Paper") (lit "x")
                          (lit "%\title {Old}\include{x}")))
            eq_refl (lit "%") (lit "\title {Old}") (lit "\include{x}") eq_refl _ _).
  - exists (lit " "), (lit "Old"). repeat split.
  - intros b1 b2 d' a' Hb Hn Heq (ws & arg & -> & _).
    destruct b1 as [|y [|z b1]]; try discriminate Hb.
    + simpl in Hb. subst b2. discriminate Heq.
    + injection Hb as _ Hb. subst b2. contradiction.
Defined.

(** ** The base name without its extension *)

Lemma is_tex_ext_den ext : is_tex_ext ext <-> den reTexExt ext [] [] [].
Proof.
  rewrite den_reTexExt. unfold is_tex_ext. split.
  - intros H. auto.
  - intros (_ & _ & H). exact H.
Qed.

Lemma baseNoExt_cases (base : str) :
  (exists b ext, base = b ++ ext /\ is_tex_ext ext /\ baseNoExt base = b) \/
  ((forall b ext, base = b ++ ext -> ~ is_tex_ext ext) /\ baseNoExt base = base).
Proof.
  destruct (search reTexExt 0 base) as [[b m]|] eqn:E.
  - left. pose proof E as E'. apply search_sound in E'.
    destruct E' as (rest & Hs & _ & He & _).
    apply exec_here_sound in He. destruct He as (rest' & Hr & D).
    apply app_inv_head in Hr. subst rest'.
    pose proof D as D'. apply den_reTexExt in D'. destruct D' as (_ & -> & Hx).
    rewrite app_nil_r in Hs. exists b, (m_full m). split; [exact Hs|].
    split; [exact Hx|]. rewrite Hs. apply baseNoExt_strips. exact Hx.
  - right. split.
    + intros b ext Hs Hx. apply is_tex_ext_den in Hx.
      eapply exec_here_complete.
      * eapply search_none; [exact E|exact Hs].
      * symmetry. apply app_nil_r.
      * exact Hx.
    + unfold baseNoExt, replace_first. rewrite E. reflexivity.
Qed.


(** X3. [base.replace(/\.tex$/i, "")] removes one final [.tex], in any
    letter case, and nothing else: either the name ends with such an
    extension and the result is what stands before it, or it does not
    and the name is returned as it is. *)
Theorem X3_baseNoExt (base : str) :
  (exists b ext, base = b ++ ext /\ is_tex_ext ext /\ baseNoExt base = b) \/
  ((forall b ext, base = b ++ ext -> ~ is_tex_ext ext) /\ baseNoExt base = base).
Proof. apply baseNoExt_cases. Qed.

(** ** More on the title *)

Lemma squeeze_id p s : forall b,
  forallb (fun c => negb (p c)) s = true -> squeeze p b s = s.
Proof.
  induction s as [|x s IH]; intros b H; simpl in *; [reflexivity|].
  apply andb_prop in H. destruct H as [Hx Hs].
  apply negb_true_iff in Hx. rewrite Hx. f_equal. auto.
Qed.

Lemma squeeze_space_flag s :
  head_not_space s = true -> squeeze is_space true s = squeeze is_space false s.
Proof.
  destruct s as [|x s]; simpl; [reflexivity|]. unfold not_space.
  intros H. apply negb_true_iff in H. rewrite H. reflexivity.
Qed.

Lemma squeeze_space_id s :
  single_spaced s = true -> squeeze is_space false s = s.
Proof.
  induction s as [|x s IH]; simpl; [reflexivity|]. intros H.
  apply andb_prop in H. destruct H as [Hx Hs].
  destruct (is_space x) eqn:E.
  - apply andb_prop in Hx. destruct Hx as [H32 Hh].
    apply N.eqb_eq in H32. subst x.
    rewrite squeeze_space_flag by exact Hh. rewrite IH by exact Hs. reflexivity.
  - rewrite IH by exact Hs. reflexivity.
Qed.

Lemma in_squeeze p c s : forall b, In c (squeeze p b s) -> In c s \/ c = 32.
Proof.
  induction s as [|x s IH]; intros b H; simpl in *; [contradiction|].
  destruct (p x).
  - destruct b.
    + apply IH in H. tauto.
    + destruct H as [<-|H]; [auto|]. apply IH in H. tauto.
  - destruct H as [<-|H]; [auto|]. apply IH in H. tauto.
Qed.

Lemma in_trim c s : In c (trim s) -> In c s.
Proof.
  rewrite trim_eq. intros H.
  destruct (trim_start_suffix s) as (t1 & H1).
  destruct (trim_end_prefix (trim_start s)) as (t2 & H2).
  rewrite H1. apply in_or_app. right. rewrite H2. apply in_or_app. left. exact H.
Qed.

Lemma niceTitle_eq base :
  niceTitle base =
  trim (squeeze is_space false (squeeze is_sep false (baseNoExt base))).
Proof. unfold niceTitle, reSpaces, reSeparators. rewrite !replace_runs. reflexivity. Qed.

(** X4. The title is made of code units of the base name and of spaces
    only; and deriving a title from a title changes nothing, unless the
    title still ends with [.tex]. *)
Theorem X4_title_of_title (base : str) :
  (forall c, In c (niceTitle base) -> In c base \/ c = 32) /\
  ((forall b ext, niceTitle base = b ++ ext -> ~ is_tex_ext ext) ->
   niceTitle (niceTitle base) = niceTitle base).
Proof.
  split.
  - intros c H. rewrite niceTitle_eq in H. apply in_trim in H.
    apply in_squeeze in H. destruct H as [H|H]; [|auto].
    apply in_squeeze in H. destruct H as [H|H]; [|auto]. left.
    destruct (baseNoExt_cases base) as [(b & ext & Hb & _ & Hn)|[_ Hn]];
      rewrite Hn in H.
    + rewrite Hb. apply in_or_app. auto.
    + exact H.
  - intros Hext.
    assert (Hsep : forallb (fun c => negb (is_sep c)) (niceTitle base) = true).
    { rewrite niceTitle_eq. apply forallb_trim.
      apply squeeze_keeps; [reflexivity|]. apply squeeze_removes. reflexivity. }
    assert (Hsp : single_spaced (niceTitle base) = true).
    { rewrite niceTitle_eq. apply single_spaced_trim. apply squeeze_space_single. }
    assert (Hh : head_not_space (niceTitle base) = true)
      by (rewrite niceTitle_eq; apply trim_head).
    assert (Hl : head_not_space (rev (niceTitle base)) = true)
      by (rewrite niceTitle_eq; apply trim_last).
    rewrite (niceTitle_eq (niceTitle base)).
    destruct (baseNoExt_cases (niceTitle base)) as [(b & ext & Hb & Hx & _)|[_ Hn]].
    + exfalso. eapply Hext; eauto.
    + rewrite Hn. rewrite squeeze_id with (p := is_sep) by exact Hsep. rewrite squeeze_space_id by exact Hsp.
      apply trim_ends; assumption.
Qed.

(** X4, an instance: the title of the specification's first example. *)
Lemma X4_witness :
  niceTitle (niceTitle (lit "My_Great-Paper")) = niceTitle (lit "My_Great-Paper").
Proof.
  refine (proj2 (X4_title_of_title (lit "My_Great-Paper")) _).
  intros b ext H (t & e & x & -> & _).
  apply (f_equal (@rev char)) in H. rewrite rev_app_distr in H.
  vm_compute in H. discriminate H.
Defined.

(** ** The drawing payload *)

Lemma mt_Lit (A : Type) l : forall u c (k : caps -> str -> option A),
  mt (Lit l) u c k =
  match strip_prefix l u with Some r => k c r | None => None end.
Proof.
  induction l as [|x l IH]; intros u c k.
  - reflexivity.
  - change (Lit (x :: l)) with (Seq (Chr (chr_is x)) (Lit l)).
    cbn [mt strip_prefix]. destruct u as [|y u]; [reflexivity|].
    unfold chr_is. destruct (x =? y); [apply IH|reflexivity].
Qed.

(** A lazy repetition stops at the first place where what follows
    matches. *)
Lemma rep_lazy_first (A : Type) p s : forall (k : str -> option A) a,
  rep_lazy p 0 s k = Some a ->
  exists m rest,
    s = m ++ rest /\ forallb p m = true /\ k rest = Some a /\
    forall m1 m2, m = m1 ++ m2 -> m2 <> [] -> k (m2 ++ rest) = None.
Proof.
  induction s as [|x s IH]; intros k a H; simpl in H.
  - exists [], []. repeat split; auto.
    intros m1 m2 Hm Hn. symmetry in Hm. apply app_eq_nil in Hm. tauto.
  - destruct (k (x :: s)) eqn:Ek.
    + injection H as <-. exists [], (x :: s). repeat split; auto.
      intros m1 m2 Hm Hn. symmetry in Hm. apply app_eq_nil in Hm. tauto.
    + destruct (p x) eqn:Ep; [|discriminate].
      apply IH in H. destruct H as (m & rest & -> & Hf & Hk & Hmin).
      exists (x :: m), rest. simpl. rewrite Ep, Hf. repeat split; auto.
      intros m1 m2 Hm Hn. destruct m1 as [|y m1]; simpl in Hm.
      * subst m2. exact Ek.
      * injection Hm as _ Hm. eapply Hmin; eauto.
Qed.

Lemma den_fence_head m rest c :
  den (Lit (lit "```tldraw") ;; Rep true 0 is_space ;; Chr (chr_is 10))%re m rest [] c ->
  c = [] /\ exists ws, m = lit "```tldraw" ++ ws ++ [10] /\ forallb is_space ws = true.
Proof.
  rewrite den_Lit_Seq. intros (m1 & -> & D). rewrite den_Rep_Seq in D.
  destruct D as (ws & m2 & -> & _ & Hws & D). cbn [den] in D.
  destruct D as (x & -> & Hx & ->). unfold chr_is in Hx. apply N.eqb_eq in Hx.
  subst x. split; [reflexivity|]. exists ws. auto.
Qed.

Lemma exec_here_fence t full g :
  exec_here reTldrawFence t = Some (full, g) ->
  exists ws payload after,
    t = full ++ after /\ g = [payload] /\
    full = lit "```tldraw" ++ ws ++ [10] ++ payload ++ lit "```" /\
    forallb is_space ws = true /\
    first_occurrence (lit "```") payload after.
Proof.
  unfold exec_here.
  change (mt reTldrawFence t [] (fun c rest => Some (consumed t rest, c)))
    with (mt (Lit (lit "```tldraw") ;; Rep true 0 is_space ;; Chr (chr_is 10))%re t []
            (fun c s' =>
               rep_lazy any 0 s'
                 (fun s'' => mt (Lit (lit "```")) s'' (c ++ [consumed s' s''])
                               (fun c' rest => Some (consumed t rest, c'))))).
  intros H. apply mt_sound in H. destruct H as (m0 & rest0 & c0 & -> & D & H).
  apply den_fence_head in D. destruct D as (-> & ws & -> & Hws).
  apply rep_lazy_first in H. destruct H as (payload & rest & -> & _ & Hk & Hmin).
  rewrite mt_Lit in Hk.
  destruct (strip_prefix (lit "```") rest) as [after|] eqn:E; [|discriminate].
  apply strip_prefix_sound in E. subst rest.
  rewrite consumed_app in Hk.
  assert (Hc : consumed ((lit "```tldraw" ++ ws ++ [10]) ++ payload ++ lit "```" ++ after) after
               = lit "```tldraw" ++ ws ++ [10] ++ payload ++ lit "```").
  { replace ((lit "```tldraw" ++ ws ++ [10]) ++ payload ++ lit "```" ++ after)
      with ((lit "```tldraw" ++ ws ++ [10] ++ payload ++ lit "```") ++ after)
      by (rewrite <- !app_assoc; reflexivity).
    apply consumed_app. }
  rewrite Hc in Hk. change ([] ++ [payload]) with [payload] in Hk.
  assert (full = lit "```tldraw" ++ ws ++ [10] ++ payload ++ lit "```" /\
          g = [payload]) as [-> ->] by (split; congruence).
  exists ws, payload, after.
  split; [rewrite <- !app_assoc; reflexivity|].
  split; [reflexivity|]. split; [reflexivity|]. split; [exact Hws|].
  intros p1 p2 r Hp Hn Heq. specialize (Hmin p1 p2 Hp Hn).
  rewrite mt_Lit, Heq, strip_prefix_app in Hmin. discriminate.
Qed.

(** X5. The payload taken from a drawing document: the document holds,
    at the leftmost [```tldraw] fence that is closed, that tag, white
    space ending in a line feed, the payload, and a closing fence; the
    payload ends at the first closing fence, so no [```] begins inside
    it. *)
Theorem X5_payload_ends_at_first_fence (src : str) (m : jsmatch) :
  js_match reTldrawFence src = Some m ->
  exists before ws after,
    src = before ++ m_full m ++ after /\
    m_full m = lit "```tldraw" ++ ws ++ [10] ++ group1 m ++ lit "```" /\
    forallb is_space ws = true /\
    first_occurrence (lit "```") (group1 m) after.
Proof.
  intros H. destruct (js_match_some _ _ H) as (before & after & Hs & _ & He & _).
  apply exec_here_fence in He.
  destruct He as (ws & payload & after' & Ht & Hg & Hf & Hws & Hfirst).
  apply app_inv_head in Ht. subst after'.
  exists before, ws, after. unfold group1. rewrite Hg. cbn [nth]. auto.
Qed.

(** X5, an instance: a document with two fenced blocks. *)
Lemma X5_witness :
  let src := lit "x ```tldraw" ++ [10] ++ lit "{a}```b```" in
  exists m, js_match reTldrawFence src = Some m /\ group1 m = lit "{a}" /\
    exists before ws after,
      src = before ++ m_full m ++ after /\
      m_full m = lit "```tldraw" ++ ws ++ [10] ++ group1 m ++ lit "```" /\
      forallb is_space ws = true /\
      first_occurrence (lit "```") (group1 m) after.
Proof.
  intros src.
  exists (MkMatch 2 (lit "```tldraw" ++ [10] ++ lit "{a}```") [lit "{a}"]).
  split; [vm_compute; reflexivity|]. split; [reflexivity|].
  apply (@X5_payload_ends_at_first_fence src). vm_compute. reflexivity.
Defined.

(** ** The drawing exporter, continued *)

Section ExporterMore.
Context {P : PathApi}.
Variables vaultPath outDir stageRoot : str.
Variable W : World.

(** X6. [exportTldrawMdToPng] never throws: in every world it returns,
    and what it returns is [null] as soon as one of its file or process
    operations has thrown, or when the document read has no fenced
    drawing block. *)
Theorem X6_exporter_null_on_failure (mdAbs : str) (s : St W) :
  exists r,
    outcome W (exportTldrawMdToPng vaultPath outDir stageRoot mdAbs) s = inr r /\
    (all_succeeded (trace W (exportTldrawMdToPng vaultPath outDir stageRoot mdAbs) s)
       = false -> r = None) /\
    (forall src, fst (handle W (ReadFile mdAbs) s) = inr src ->
                 js_match reTldrawFence src = None -> r = None).
Proof. apply exporter_never_throws. Qed.

(** X7. When [exportTldrawMdToPng] returns a result, it has done five
    things, in this order, and none has thrown: read the document, which
    has a fenced block; created the directory of the raster path;
    written the block's payload to [<outDir>/<base>.tldr]; started one
    converter, in the vault, on that file and on the raster path; and
    removed that file.  So the payload, and nothing else, was written,
    before the converter was started, and the file was removed after.
    The result names [pictures/<base>.png] and the same path under the
    stage. *)
Theorem X7_exporter_success (mdAbs : str) (s : St W) (d : DrawingExport) :
  outcome W (exportTldrawMdToPng vaultPath outDir stageRoot mdAbs) s = inr (Some d) ->
  let tr := trace W (exportTldrawMdToPng vaultPath outDir stageRoot mdAbs) s in
  let drawBase := path_basename mdAbs (lit ".md") in
  let tmp := path_join [outDir; drawBase ++ lit ".tldr"] in
  let cmd := dq ++ path_join [vaultPath; lit "tldraw_convert.sh"] ++ dq ++ lit " " ++
             dq ++ tmp ++ dq ++ lit " " ++ dq ++ pngAbs d ++ dq in
  pngRel d = lit "pictures/" ++ drawBase ++ lit ".png" /\
  pngAbs d = path_join [stageRoot; pngRel d] /\
  exists src m,
    fst (handle W (ReadFile mdAbs) s) = inr src /\
    js_match reTldrawFence src = Some m /\
    tr = [Ev (ReadFile mdAbs) (inr src);
          Ev (EnsureDir (path_dirname (pngAbs d))) (inr tt);
          Ev (WriteFile tmp (group1 m)) (inr tt);
          Ev (Spawn cmd {| cwd := Some vaultPath; shell := lit "/bin/bash";
                           env := Some [fixedPath;
                                        (lit "npm_config_yes", lit "true")] |})
             (inr tt);
          Ev (Remove tmp) (inr tt)] /\
    writes tr = [(tmp, group1 m)] /\
    spawned tr = [cmd] /\
    removes tr = [tmp] /\
    all_succeeded tr = true.
Proof.
  unfold outcome, trace, exportTldrawMdToPng.
  cbn [catch Exc_prog bind ret Monad_prog].
  rewrite run_try_catch, run_bind, run_call.
  destruct (handle W (ReadFile mdAbs) s) as [[e|src] s1]; cbn [fst snd].
  { rewrite run_bind, run_emit. cbn. intros H. discriminate H. }
  destruct (js_match reTldrawFence src) as [m|] eqn:Em.
  2:{ cbn. intros H. discriminate H. }
  rewrite run_bind, run_call.
  destruct (handle W (EnsureDir _) s1) as [[e|[]] s2]; cbn [fst snd].
  { rewrite run_bind, run_emit. cbn. intros H. discriminate H. }
  rewrite run_bind, run_call.
  destruct (handle W (WriteFile _ _) s2) as [[e|[]] s3]; cbn [fst snd].
  { rewrite run_bind, run_emit. cbn. intros H. discriminate H. }
  rewrite run_bind, run_call.
  destruct (handle W (Spawn _ _) s3) as [[e|[]] s4]; cbn [fst snd].
  { rewrite run_bind, run_emit. cbn. intros H. discriminate H. }
  rewrite run_bind, run_call.
  destruct (handle W (Remove _) s4) as [[e|[]] s5]; cbn [fst snd].
  { rewrite run_bind, run_emit. cbn. intros H. discriminate H. }
  cbn [run fst snd app]. intros H. injection H as <-. cbn [pngRel pngAbs].
  split; [reflexivity|]. split; [reflexivity|].
  exists src, m. repeat split; try reflexivity. exact Em.
Qed.

End ExporterMore.

(** X6, an instance: a drawing document that cannot be read. *)
Lemma X6_witness :
  let P := posixPath in
  outcome simWorld
    (exportTldrawMdToPng (lit "/v") (lit "/v/out") (lit "/v/out/__stage__")
       (lit "/v/pictures/Sketch.md")) (vault [] []) = inr None.
Proof.
  intros P.
  destruct (@X6_exporter_null_on_failure P (lit "/v") (lit "/v/out")
              (lit "/v/out/__stage__") simWorld (lit "/v/pictures/Sketch.md")
              (vault [] [])) as (r & Ho & Hf & _).
  rewrite Ho. f_equal. apply Hf. vm_compute. reflexivity.
Defined.

(** X7, an instance: a drawing document with a payload. *)
Lemma X7_witness :
  let P := posixPath in
  let w := vault [(lit "/v/pictures/Sketch.md",
                   lit "```tldraw" ++ [10] ++ lit "{}" ++ [10] ++ lit "```")] [] in
  let tr := trace simWorld
              (exportTldrawMdToPng (lit "/v") (lit "/v/out") (lit "/v/out/__stage__")
                 (lit "/v/pictures/Sketch.md")) w in
  writes tr = [(lit "/v/out/Sketch.tldr", lit "{}" ++ [10])] /\
  removes tr = [lit "/v/out/Sketch.tldr"].
Proof.
  intros P w tr.
  destruct (@X7_exporter_success P (lit "/v") (lit "/v/out")
              (lit "/v/out/__stage__") simWorld (lit "/v/pictures/Sketch.md") w
              {| pngRel := lit "pictures/Sketch.png";
                 pngAbs := lit "/v/out/__stage__/pictures/Sketch.png" |})
    as (_ & _ & src & m & Hr & Hm & _ & Hw & _ & Hrm & _).
  - vm_compute. reflexivity.
  - fold tr in Hw, Hrm. split; [|exact Hrm].
    rewrite Hw. vm_compute in Hr. injection Hr as <-.
    vm_compute in Hm. injection Hm as <-. reflexivity.
Defined.

(** ** The Pattern-B placeholders *)

(** X8. Every Pattern-B match of a text is a part of that text of the
    form [!{[}{[}<path>{]}{]}], where the captured path begins with
    [pictures/], ends with [.md] and has no brace in between; and the
    [.trim()] applied to the captured path never changes it. *)
Theorem X8_tldraw_matches (tex : str) :
  Forall (fun m =>
            (exists b a, tex = b ++ m_full m ++ a) /\
            m_full m = lit "!{[}{[}" ++ group1 m ++ lit "{]}{]}" /\
            (exists x, group1 m = lit "pictures/" ++ x ++ lit ".md" /\ x <> [] /\
                       forallb (fun c => chr_not 123 c && chr_not 125 c) x = true) /\
            trim (group1 m) = group1 m)
         (matchAll reTldrawEscaped tex).
Proof.
  apply Forall_forall. intros m Hin.
  split; [eapply hit_occurs; exact Hin|].
  pose proof (matchAll_den reTldrawEscaped tex) as Hden.
  rewrite Forall_forall in Hden. destruct (Hden m Hin) as (rest & D).
  apply den_reTldrawEscaped in D. destruct D as (x & Hc & Hm & Hx & Hf).
  unfold group1. rewrite Hc. cbn [nth].
  split; [exact Hm|]. split; [exists x; auto|]. apply trim_tldraw_path.
Qed.

Lemma tldraw_replace_first (m : jsmatch) (o : option DrawingExport)
    (tex before after : str) :
  tex = before ++ m_full m ++ after ->
  no_dollar (tldrawReplacement (trim (group1 m)) o) = true ->
  exists b a,
    tex = b ++ m_full m ++ a /\ first_occurrence (m_full m) b a /\
    applyTldraw tex (m, o) = b ++ tldrawReplacement (trim (group1 m)) o ++ a.
Proof.
  intros Ht Hd. unfold applyTldraw, replace_str. cbn [fst snd].
  destruct (split_at_first (m_full m) tex) as [[b a]|] eqn:E.
  - exists b, a. split; [apply split_at_first_sound; exact E|].
    split; [eapply split_at_first_leftmost; exact E|].
    rewrite get_substitution_plain by exact Hd. reflexivity.
  - exfalso. eapply split_at_first_none; eauto.
Qed.

Section OnePlaceholder.
Context {P : PathApi}.
Variables vaultPath outDir stageRoot : str.
Variable W : World.

(** X9. A text with no Pattern-A wrapper and one Pattern-B placeholder:
    the exporter is asked for [path.join(vault, <captured path>)], and
    the rewritten text is the original with that placeholder, and it
    alone, replaced: by the canonical directive on the raster path when
    the export gave one, by the comment on the captured path otherwise.
    This needs the inserted text to have no dollar. *)
Theorem X9_one_placeholder (tex : str) (m : jsmatch)
    (o : option DrawingExport) (s : St W) :
  matchAll reBounded tex = [] ->
  matchAll reTldrawEscaped tex = [m] ->
  outcome W (exportTldrawMdToPng vaultPath outDir stageRoot
               (path_join [vaultPath; group1 m])) s = inr o ->
  no_dollar (tldrawReplacement (group1 m) o) = true ->
  exists b a,
    tex = b ++ m_full m ++ a /\ first_occurrence (m_full m) b a /\
    outcome W (rewriteRefs vaultPath outDir stageRoot tex) s =
    inr (b ++ match exportedOk o with
              | Some d => includegraphics (pngRel d)
              | None => missingComment (group1 m)
              end ++ a, []).
Proof.
  intros HA HB Hx Hd.
  assert (Hin : In m (matchAll reTldrawEscaped tex)) by (rewrite HB; left; reflexivity).
  destruct (hit_occurs _ _ _ _ _ Hin) as (b0 & a0 & Ht).
  assert (Htrim : trim (group1 m) = group1 m).
  { pose proof (matchAll_den reTldrawEscaped tex) as Hden. rewrite HB in Hden.
    inversion Hden as [|? ? (rest & D) _]; subst.
    apply den_reTldrawEscaped in D. destruct D as (x & Hc & _).
    unfold group1. rewrite Hc. apply trim_tldraw_path. }
  rewrite <- Htrim in Hd.
  destruct (tldraw_replace_first m o _ _ Ht Hd) as (b & a & Hs & Hf & Happ).
  exists b, a. split; [exact Hs|]. split; [exact Hf|].
  unfold outcome, rewriteRefs, rewriteBounded in *.
  rewrite replace_fn_no_match by exact HA.
  cbn [bind Monad_prog]. rewrite run_bind. unfold replaceTldraw. rewrite HB.
  cbn [for_fold]. rewrite !run_bind. unfold tldrawStep.
  cbn [bind Monad_prog]. rewrite run_bind. rewrite Htrim.
  destruct (run W (exportTldrawMdToPng vaultPath outDir stageRoot
                     (path_join [vaultPath; group1 m])) s) as [[r s1] tr1].
  cbn [fst] in Hx. subst r.
  unfold applyTldraw, tldrawReplacement in Happ. cbn [fst snd] in Happ.
  rewrite Htrim in Happ.
  destruct (exportedOk o) as [d|]; cbn [ret Monad_prog run fst snd];
    rewrite Happ; reflexivity.
Qed.

End OnePlaceholder.

(** X9, an instance: a placeholder whose drawing has a payload. *)
Lemma X9_witness :
  let P := posixPath in
  let w := vault [(lit "/v/pictures/Sketch.md",
                   lit "```tldraw" ++ [10] ++ lit "{}" ++ [10] ++ lit "```")] [] in
  outcome simWorld
    (rewriteRefs (lit "/v") (lit "/v/out") (lit "/v/out/__stage__")
       (lit "See !{[}{[}pictures/Sketch.md{]}{]} above.")) w =
  inr (lit "See \includegraphics[width=\linewidth]{pictures/Sketch.png} above.", []).
Proof.
  intros P w.
  pose (tex := lit "See !{[}{[}pictures/Sketch.md{]}{]} above.").
  pose (m := MkMatch 4 (lit "!{[}{[}pictures/Sketch.md{]}{]}") [lit "pictures/Sketch.md"]).
  pose (o := Some {| pngRel := lit "pictures/Sketch.png";
                     pngAbs := lit "/v/out/__stage__/pictures/Sketch.png" |}).
  assert (HA : matchAll reBounded tex = []) by (vm_compute; reflexivity).
  assert (HB : matchAll reTldrawEscaped tex = [m]) by (vm_compute; reflexivity).
  assert (Hx : outcome simWorld
                 (exportTldrawMdToPng (lit "/v") (lit "/v/out") (lit "/v/out/__stage__")
                    (path_join [lit "/v"; group1 m])) w = inr o)
    by (vm_compute; reflexivity).
  assert (Hd : no_dollar (tldrawReplacement (group1 m) o) = true)
    by (vm_compute; reflexivity).
  destruct (@X9_one_placeholder P (lit "/v") (lit "/v/out") (lit "/v/out/__stage__")
              simWorld tex m o w HA HB Hx Hd) as (b & a & Hs & Hf & Ho).
  fold tex. rewrite Ho. clear Ho.
  assert (E : split_at_first (m_full m) tex = Some (b, a)).
  { rewrite Hs at 1. apply split_at_first_complete. exact Hf. }
  vm_compute in E. injection E as <- <-. reflexivity.
Defined.

(** ** What the whole command does and does not do *)

Lemma all_eff_bind (A B : Type) Q (p : prog A) (f : A -> prog B) :
  all_eff Q p -> (forall a, all_eff Q (f a)) -> all_eff Q (bind_prog p f).
Proof.
  intros Hp Hf. induction p as [a|e|X e k IH]; simpl in *; auto.
  destruct Hp as [He Hk]. split; auto.
Qed.

Lemma all_eff_try_catch (A : Type) Q (p : prog A) (h : exn -> prog A) :
  all_eff Q p -> (forall e, all_eff Q (h e)) -> all_eff Q (try_catch p h).
Proof.
  intros Hp Hh. induction p as [a|e|X e k IH]; simpl in *; auto.
  destruct Hp as [He Hk]. split; auto.
Qed.

Lemma all_eff_for_each (A : Type) Q (l : list A) (body : A -> prog unit) :
  (forall a, all_eff Q (body a)) -> all_eff Q (for_each l body).
Proof.
  intros H. induction l as [|x l IH]; simpl; [exact I|].
  apply all_eff_bind; auto.
Qed.

Lemma all_eff_for_fold (A S : Type) Q (l : list A) (body : A -> S -> prog S) :
  (forall a s, all_eff Q (body a s)) -> forall s, all_eff Q (for_fold l body s).
Proof.
  intros H. induction l as [|x l IH]; intros s; simpl; [exact I|].
  apply all_eff_bind; auto.
Qed.

Lemma all_eff_emit (X : Type) (Q : forall X : Type, eff X -> Prop) (e : eff X) :
  Q _ e -> all_eff Q (emit e).
Proof. intros H. simpl. split; [exact H|]. intros x. exact I. Qed.

Lemma all_eff_call (X : Type) (Q : forall X : Type, eff X -> Prop) (e : eff (exn + X)) :
  Q _ e -> all_eff Q (call e).
Proof. intros H. simpl. split; [exact H|]. intros [x|x]; exact I. Qed.

Lemma all_eff_run (A : Type) Q (W : World) (p : prog A) :
  all_eff Q p -> forall s,
  Forall (fun ev => match ev with @Ev X e _ => Q X e end) (trace W p s).
Proof.
  unfold trace. induction p as [a|e|X e k IH]; simpl; intros H s.
  - constructor.
  - constructor.
  - destruct H as [He Hk]. destruct (handle W e s) as [x s1].
    specialize (IH x (Hk x) s1). destruct (run W (k x) s1) as [[r s2] tr].
    simpl in *. constructor; assumption.
Qed.

(** Walks through a program, bind by bind; what remains to be proved is
    [Q] at the effects that do not satisfy it at sight. *)
Ltac eff_walk :=
  repeat first
    [ exact I
    | progress cbn [bind ret Monad_prog catch Exc_prog]
    | apply all_eff_bind; [|intros ?]
    | apply all_eff_emit; first [exact I|idtac]
    | apply all_eff_call; exact I
    | apply all_eff_for_each; intros ?
    | apply all_eff_for_fold; intros ? ?
    | apply all_eff_try_catch; [|intros ?]
    | match goal with |- all_eff _ (match ?x with _ => _ end) => destruct x end ].

Lemma not_open_opened tr :
  Forall (fun ev => match ev with @Ev X e _ => not_open e end) tr -> opened tr = [].
Proof.
  induction 1 as [|[X e x] tr He _ IH]; simpl; [reflexivity|].
  destruct e; simpl in He; try exact IH. contradiction.
Qed.

Section Command.
Context {P : PathApi}.

(** X10. With [autoOpen] switched off, the command never opens a URL,
    whatever happens: in no world does a run contain a call of [open]. *)
Theorem X10_no_open_without_autoOpen (settings : Md2OverleafSettings)
    (W : World) (s : St W) :
  autoOpen settings = false ->
  opened (trace W (exportToOverleaf settings) s) = [].
Proof.
  intros H. apply not_open_opened. apply all_eff_run.
  destruct settings as [sp uh ao]. simpl in H. subst ao.
  unfold exportToOverleaf, onConverted, onUploaded, stageTex, stageAssets,
    rewriteRefs, replaceTldraw, tldrawStep, copyAssets, copyTask,
    exportTldrawMdToPng.
  cbn [autoOpen]. eff_walk.
Qed.

(** X11. No file of the vault is touched before the converter has
    returned without error: in every run, either no file is read,
    written, removed, copied, archived or handed to a converter, or the
    first awaited subprocess of the run ended with [err] null. *)
Theorem X11_files_untouched_unless_converted (settings : Md2OverleafSettings)
    (W : World) (s : St W) :
  let tr := trace W (exportToOverleaf settings) s in
  file_events tr = [] \/
  exists c o r rest, exec_results tr = (c, o, r) :: rest /\ exec_err r = None.
Proof.
  unfold trace, exportToOverleaf. cbn [bind ret Monad_prog].
  rewrite run_bind, run_emit.
  destruct (handle W GetActiveFile s) as [[file_path|] s1]; cbn [fst snd].
  2:{ rewrite run_emit. left. reflexivity. }
  rewrite run_bind, run_emit.
  destruct (handle W GetBasePath s1) as [vaultPath s2]; cbn [fst snd].
  rewrite run_bind, run_call.
  destruct (handle W (EnsureDir _) s2) as [[e|[]] s3]; cbn [fst snd].
  { left. reflexivity. }
  rewrite run_bind, run_emit.
  destruct (handle W (Console _ _) s3) as [[] s4]; cbn [fst snd].
  rewrite run_bind, run_emit.
  destruct (handle W (Console _ _) s4) as [[] s5]; cbn [fst snd].
  rewrite run_bind, run_emit.
  destruct (handle W (Exec _ _) s5) as [r s6]; cbn [fst snd].
  destruct (exec_err r) as [err|] eqn:Er.
  - left. unfold onConverted. rewrite Er. cbn [bind ret Monad_prog].
    rewrite run_bind, !run_emit. reflexivity.
  - right.
    destruct (run W (onConverted settings vaultPath _ _ r) s6) as [[res s7] tr7].
    cbn [snd app exec_results]. do 4 eexists. split; [reflexivity|exact Er].
Qed.

End Command.

(** X10, an instance: a complete export with [autoOpen] off. *)
Lemma X10_witness :
  let P := posixPath in
  let settings := {| scriptPath := scriptPath DEFAULT_SETTINGS;
                     uploadHost := uploadHost DEFAULT_SETTINGS;
                     autoOpen := false |} in
  let w := vault
    [(lit "/v/.md2overleaf/Notes/Notes.tex", lit "text");
     (lit "/v/main.tex", lit "\title{T}"); (lit "/v/config.tex", lit "cfg")]
    (lit "https://bashupload.app/abc") in
  opened (trace simWorld (exportToOverleaf settings) w) = [].
Proof.
  intros P settings w.
  exact (@X10_no_open_without_autoOpen P settings simWorld w eq_refl).
Defined.

(** ** The order of the subprocesses *)

Lemma exec_order_free (A : Type) qs (p : prog A) :
  all_exec (fun _ _ => False) p -> exec_order qs p.
Proof.
  induction p as [a|e|X e k IH]; simpl; intros H; auto.
  destruct H as [He Hk]. destruct e; try (intros x; apply IH; apply Hk).
  contradiction.
Qed.

Lemma exec_order_bind_free (A B : Type) qs (p : prog A) (f : A -> prog B) :
  all_exec (fun _ _ => False) p -> (forall a, exec_order qs (f a)) ->
  exec_order qs (bind_prog p f).
Proof.
  intros Hp Hf. induction p as [a|e|X e k IH]; simpl in *; auto.
  destruct Hp as [He Hk]. destruct e; try (intros x; apply IH; apply Hk).
  contradiction.
Qed.

Lemma exec_order_run (A : Type) (W : World) (p : prog A) : forall qs,
  exec_order qs p -> forall s, in_order qs (exec_results (trace W p s)).
Proof.
  unfold trace. induction p as [a|e|X e k IH]; intros qs H s.
  - exact I.
  - exact I.
  - cbn [run]. destruct (handle W e s) as [x s1].
    destruct (run W (k x) s1) as [[r s2] tr] eqn:E.
    assert (Hrec : forall qs', exec_order qs' (k x) -> in_order qs' (exec_results tr)).
    { intros qs' H'. specialize (IH x qs' H' s1). rewrite E in IH. exact IH. }
    cbn [snd]. destruct e; cbn [exec_results]; try (apply Hrec; apply H).
    cbn [exec_order] in H. destruct qs as [|q qs']; [contradiction|].
    destruct H as [Hq Hk]. cbn [in_order]. split; [exact Hq|].
    specialize (Hk x). destruct (exec_err x); apply Hrec; exact Hk.
Qed.

Lemma exec_order_bind_exec (B : Type) q qs c o (f : ExecResult -> prog B) :
  q c o ->
  (forall r, match exec_err r with
             | None => exec_order qs (f r)
             | Some _ => exec_order [] (f r)
             end) ->
  exec_order (q :: qs) (bind_prog (emit (Exec c o)) f).
Proof. intros Hq Hf. simpl. split; [exact Hq|exact Hf]. Qed.

Section Order.
Context {P : PathApi}.

Lemma callback_exec_order settings vaultPath base outDir r :
  exec_order (match exec_err r with
              | None => [upload_exec outDir base]
              | Some _ => []
              end)
             (onConverted settings vaultPath base outDir r).
Proof.
  unfold onConverted, onUploaded, stageTex, stageAssets,
    rewriteRefs, replaceTldraw, tldrawStep, copyAssets, copyTask,
    exportTldrawMdToPng.
  destruct (exec_err r).
  - apply exec_order_free. exec_walk.
  - repeat first
      [ exact I
      | progress cbn [bind ret Monad_prog]
      | apply exec_order_free; solve [exec_walk]
      | apply exec_order_bind_free; [solve [exec_walk]|intros ?]
      | match goal with
        | |- exec_order _ (bind_prog (emit (Exec _ _)) _) =>
            apply exec_order_bind_exec;
            [|let r := fresh "r" in intros r; destruct (exec_err r)]
        | |- exec_order _ (match ?x with _ => _ end) => destruct x
        end ].
    split; reflexivity.
Qed.

(** X12. The command awaits at most two subprocesses.  With no active
    note it awaits none.  Otherwise the first is the converter,
    [./mdtex.sh -v "<filePath>"] on the active note's path under the
    vault, run in the vault with the fixed search path; the second, only
    if the converter returned without error (and the staging that
    follows did not throw), is the upload of [<base>.zip] by [curl]
    after a [cd] to the output directory of that note.  Never the upload
    alone, never a third. *)
Theorem X12_converter_then_upload (settings : Md2OverleafSettings)
    (W : World) (s : St W) :
  let l := exec_results (trace W (exportToOverleaf settings) s) in
  match fst (handle W GetActiveFile s) with
  | None => l = []
  | Some file_path =>
      let vaultPath := fst (handle W GetBasePath (snd (handle W GetActiveFile s))) in
      let filePath := path_join [vaultPath; file_path] in
      let base := path_basename filePath (lit ".md") in
      let outDir := path_join [vaultPath; lit ".md2overleaf"; base] in
      l = [] \/
      (exists c o r, l = [(c, o, r)] /\ converter_exec vaultPath filePath c o) \/
      (exists c o r c' o' r',
          l = [(c, o, r); (c', o', r')] /\ converter_exec vaultPath filePath c o /\
          exec_err r = None /\ upload_exec outDir base c' o')
  end.
Proof.
  cbv zeta. unfold trace, exportToOverleaf. cbn [bind ret Monad_prog].
  rewrite run_bind, run_emit.
  destruct (handle W GetActiveFile s) as [[file_path|] s1]; cbn [fst snd].
  2:{ rewrite run_emit. reflexivity. }
  rewrite run_bind, run_emit.
  destruct (handle W GetBasePath s1) as [vaultPath s2]; cbn [fst snd].
  rewrite run_bind, run_call.
  destruct (handle W (EnsureDir _) s2) as [[e|[]] s3]; cbn [fst snd].
  { left. reflexivity. }
  rewrite run_bind, run_emit.
  destruct (handle W (Console _ _) s3) as [[] s4]; cbn [fst snd].
  rewrite run_bind, run_emit.
  destruct (handle W (Console _ _) s4) as [[] s5]; cbn [fst snd].
  rewrite run_bind, run_emit.
  destruct (handle W (Exec _ _) s5) as [r s6]; cbn [fst snd].
  pose proof (@exec_order_run _ W _ _
                (callback_exec_order settings vaultPath
                   (path_basename (path_join [vaultPath; file_path]) (lit ".md"))
                   (path_join [vaultPath; lit ".md2overleaf";
                               path_basename (path_join [vaultPath; file_path])
                                 (lit ".md")]) r) s6) as H.
  unfold trace in H.
  destruct (run W (onConverted settings vaultPath _ _ r) s6) as [[res s7] tr7].
  cbn [snd app exec_results] in H |- *. right.
  destruct (exec_results tr7) as [|[[c' o'] r'] l2].
  - left. do 3 eexists. split; [reflexivity|]. split; reflexivity.
  - right. destruct (exec_err r) eqn:Er; cbn [in_order] in H; [contradiction|].
    destruct H as [Hu H].
    assert (l2 = []) as ->.
    { destruct (exec_err r'); destruct l2 as [|[[? ?] ?] ?]; auto; contradiction. }
    do 6 eexists. split; [reflexivity|]. split; [split; reflexivity|].
    split; [exact Er|exact Hu].
Qed.

End Order.

(** ** Exceptions come from file operations only *)

Lemma tof_bind (A B : Type) (p : prog A) (f : A -> prog B) :
  throws_only_on_failure p -> (forall a, throws_only_on_failure (f a)) ->
  throws_only_on_failure (bind_prog p f).
Proof. intros Hp Hf. induction p; simpl in *; auto; contradiction. Qed.

Lemma tof_no_throw (A : Type) (p : prog A) :
  no_throw p -> throws_only_on_failure p.
Proof. induction p; simpl; auto. Qed.

Lemma tof_for_each (A : Type) (l : list A) (body : A -> prog unit) :
  (forall a, throws_only_on_failure (body a)) ->
  throws_only_on_failure (for_each l body).
Proof.
  intros H. induction l as [|x l IH]; simpl; [exact I|]. apply tof_bind; auto.
Qed.

Lemma tof_emit (X : Type) (e : eff X) : throws_only_on_failure (emit e).
Proof. simpl. intros x _. exact I. Qed.

Lemma tof_call (X : Type) (e : eff (exn + X)) :
  (forall x, failedb (Ev e (inl x)) = true) -> throws_only_on_failure (call e).
Proof.
  intros H. simpl. intros [x|x] Hf; [|exact I].
  exact (eq_true_false_abs _ (H x) Hf).
Qed.

Lemma tof_run (A : Type) (W : World) (p : prog A) :
  throws_only_on_failure p -> forall s,
  all_succeeded (trace W p s) = true -> exists a, outcome W p s = inr a.
Proof.
  unfold trace, outcome. induction p as [a|e|X e k IH]; simpl; intros H s Hs.
  - eauto.
  - contradiction.
  - destruct (handle W e s) as [x s1].
    specialize (IH x). specialize (H x).
    destruct (run W (k x) s1) as [[r s2] tr] eqn:E.
    simpl in *. apply andb_prop in Hs. destruct Hs as [Hx Hs].
    apply negb_true_iff in Hx. specialize (IH (H Hx) s1). rewrite E in IH.
    apply IH. exact Hs.
Qed.

Ltac tof_walk :=
  repeat first
    [ exact I
    | progress cbn [bind ret Monad_prog]
    | apply tof_bind; [|intros ?]
    | apply tof_emit
    | apply tof_call; intros ?; reflexivity
    | apply tof_for_each; intros ?
    | match goal with
      | |- throws_only_on_failure (match ?x with _ => _ end) => destruct x
      end ].

Section Completion.
Context {P : PathApi}.

(** X13. Once the converter has returned, the rest of the export, from
    reading the LaTeX file to opening the link, throws only if a file
    operation (read, write, removal, copy, directory creation, archive)
    has thrown: a run in which none does ends normally.  Missing images,
    drawings that cannot be exported, a template without directives and
    an upload without URL are no exceptions. *)
Theorem X13_callback_completes (settings : Md2OverleafSettings)
    (vaultPath base outDir : str) (r : ExecResult) (W : World) (s : St W) :
  all_succeeded (trace W (onConverted settings vaultPath base outDir r) s) = true ->
  outcome W (onConverted settings vaultPath base outDir r) s = inr tt.
Proof.
  intros H.
  assert (T : throws_only_on_failure (onConverted settings vaultPath base outDir r)).
  { unfold onConverted, onUploaded, stageTex, stageAssets, copyAssets, copyTask.
    tof_walk. apply tof_no_throw. apply rewriteRefs_no_throw. }
  destruct (@tof_run _ W _ T s H) as ([] & Ho). exact Ho.
Qed.

End Completion.

(** X13, an instance: a vault with the LaTeX file and the template, the
    referenced image missing. *)
Lemma X13_witness :
  let P := posixPath in
  let w := vault
    [(lit "/v/.md2overleaf/Notes/Notes.tex",
      lit "\pandocbounded{\includegraphics{pictures/a.png}}");
     (lit "/v/main.tex", lit "\title{T}"); (lit "/v/config.tex", lit "cfg")]
    (lit "https://bashupload.app/abc") in
  let r := {| exec_err := None; exec_stdout := lit "ok"; exec_stderr := [] |} in
  outcome simWorld
    (onConverted DEFAULT_SETTINGS (lit "/v") (lit "Notes")
       (lit "/v/.md2overleaf/Notes") r) w = inr tt.
Proof.
  intros P w r.
  apply (@X13_callback_completes P DEFAULT_SETTINGS (lit "/v") (lit "Notes")
           (lit "/v/.md2overleaf/Notes") r simWorld w).
  vm_compute. reflexivity.
Defined.

(** ** What a run that throws has done *)

Lemma taf_bind (A B : Type) (p : prog A) (f : A -> prog B) :
  (forall a b, throws_at_failure b (f a)) ->
  forall b, throws_at_failure b p -> throws_at_failure b (bind_prog p f).
Proof.
  intros Hf. induction p as [a|e|X e k IH]; simpl; intros b Hp; auto.
Qed.

Lemma taf_no_throw (A : Type) (p : prog A) :
  no_throw p -> forall b, throws_at_failure b p.
Proof.
  induction p as [a|e|X e k IH]; simpl; intros Hn b; auto; contradiction.
Qed.

Lemma taf_emit (X : Type) (e : eff X) b : throws_at_failure b (emit e).
Proof. simpl. intros x. exact I. Qed.

Lemma taf_call (X : Type) (e : eff (exn + X)) b :
  (forall x, failedb (Ev e (inl x)) = true) -> throws_at_failure b (call e).
Proof. intros H. simpl. intros [x|x]; [apply H|exact I]. Qed.

Lemma taf_for_each (A : Type) (l : list A) (body : A -> prog unit) :
  (forall a b, throws_at_failure b (body a)) ->
  forall b, throws_at_failure b (for_each l body).
Proof.
  intros H. induction l as [|x l IH]; simpl; intros b; [exact I|].
  apply taf_bind; auto.
Qed.

Lemma taf_run (A : Type) (W : World) (p : prog A) :
  forall b s e, throws_at_failure b p -> outcome W p s = inl e ->
  (trace W p s = [] /\ b = true) \/
  exists tr0 ev, trace W p s = tr0 ++ [ev] /\ failedb ev = true.
Proof.
  unfold trace, outcome. induction p as [a|e0|X e0 k IH]; simpl; intros b s e H Ho.
  - discriminate.
  - left. split; [reflexivity|exact H].
  - destruct (handle W e0 s) as [x s1]. specialize (IH x _ s1 e (H x)).
    destruct (run W (k x) s1) as [[r s2] tr]. simpl in *. right.
    destruct (IH Ho) as [[-> Hb]|(tr0 & ev & -> & Hev)].
    + exists [], (Ev e0 x). split; [reflexivity|exact Hb].
    + exists (Ev e0 x :: tr0), ev. split; [reflexivity|exact Hev].
Qed.

Lemma tw_no_throw (A : Type) (p : prog A) :
  no_throw p -> forall Q, throws_with Q p.
Proof.
  induction p as [a|e|X e k IH]; simpl; intros Hn Q; auto; contradiction.
Qed.

Lemma tw_bind_quiet (A B : Type) Q (p : prog A) (f : A -> prog B) :
  all_eff quiet p -> Q [] [] -> (forall a, throws_with Q (f a)) ->
  throws_with Q (bind_prog p f).
Proof.
  intros Hp HQ Hf. induction p as [a|e|X e k IH]; simpl in *; auto.
  destruct Hp as [He Hk]. intros x.
  destruct e; simpl in He; try contradiction; apply IH; apply Hk.
Qed.

Lemma tw_bind_notice (B : Type) Q n (f : unit -> prog B) :
  (forall x, throws_with (fun ns xs => Q (n :: ns) xs) (f x)) ->
  throws_with Q (bind_prog (emit (Notice n)) f).
Proof. intros H. simpl. exact H. Qed.

Lemma tw_bind_emit (X B : Type) Q (e : eff X) (f : X -> prog B) :
  quiet e -> (forall x, throws_with Q (f x)) ->
  throws_with Q (bind_prog (emit e) f).
Proof. intros He H. simpl. intros x. destruct e; try contradiction; apply H. Qed.

Lemma tw_run (A : Type) (W : World) (p : prog A) :
  forall Q s e, throws_with Q p -> outcome W p s = inl e ->
  Q (notices (trace W p s)) (exec_results (trace W p s)).
Proof.
  unfold trace, outcome. induction p as [a|e0|X e0 k IH]; simpl; intros Q s e H Ho.
  - discriminate.
  - exact H.
  - destruct (handle W e0 s) as [x s1]. specialize (IH x _ s1 e (H x)).
    destruct (run W (k x) s1) as [[r s2] tr]. simpl in *.
    destruct e0; apply IH; exact Ho.
Qed.

Ltac nt_walk :=
  repeat first
    [ exact I
    | progress cbn [bind ret Monad_prog]
    | apply no_throw_bind; [|intros ?]
    | match goal with |- no_throw (emit _) => intros ?; exact I end
    | match goal with |- no_throw (match ?x with _ => _ end) => destruct x end ].

Ltac taf_walk :=
  repeat first
    [ exact I
    | progress cbn [bind ret Monad_prog]
    | apply taf_bind; [intros ? ?|]
    | apply taf_emit
    | apply taf_call; intros ?; reflexivity
    | apply taf_for_each; intros ? ?
    | match goal with
      | |- throws_at_failure _ (match ?x with _ => _ end) => destruct x
      end ].

Ltac tw_walk :=
  repeat first
    [ progress cbn [bind ret Monad_prog]
    | apply tw_bind_quiet; [solve [eff_walk] | solve [split; reflexivity] | intros ?]
    | apply tw_no_throw; solve [nt_walk]
    | apply tw_bind_notice; intros ?
    | apply tw_bind_emit; [exact I | intros ?] ].

Section Failure.
Context {P : PathApi}.

(** X14. A failure while staging is silent.  When the converter's
    callback throws, the last thing it did is a file operation that
    threw; the only notice shown is the one about the finished
    conversion, and no upload has been started. *)
Theorem X14_failure_is_silent (settings : Md2OverleafSettings)
    (vaultPath base outDir : str) (r : ExecResult) (W : World) (s : St W)
    (e : exn) :
  outcome W (onConverted settings vaultPath base outDir r) s = inl e ->
  let tr := trace W (onConverted settings vaultPath base outDir r) s in
  (exists tr0 ev, tr = tr0 ++ [ev] /\ failedb ev = true) /\
  notices tr = [lit "Conversion complete. Preparing ZIP..."] /\
  exec_results tr = [].
Proof.
  intros Ho tr. subst tr. split.
  - assert (T : throws_at_failure false
                  (onConverted settings vaultPath base outDir r)).
    { unfold onConverted, onUploaded, stageTex, stageAssets, copyAssets, copyTask.
      taf_walk. apply taf_no_throw. apply rewriteRefs_no_throw. }
    destruct (@taf_run _ W _ _ s e T Ho) as [[_ Hb]|H]; [discriminate|exact H].
  - assert (T : throws_with
                  (fun ns xs => ns = [lit "Conversion complete. Preparing ZIP..."]
                                /\ xs = [])
                  (onConverted settings vaultPath base outDir r)).
    { unfold onConverted, onUploaded, stageTex, stageAssets,
        rewriteRefs, replaceTldraw, tldrawStep, copyAssets, copyTask,
        exportTldrawMdToPng.
      destruct (exec_err r); tw_walk. }
    exact (@tw_run _ W _ _ s e T Ho).
Qed.

End Failure.

(** X14, an instance: a file system that refuses the removal of the old
    staging directory. *)
Lemma X14_witness :
  let P := posixPath in
  let w := vault [(lit "/v/.md2overleaf/Notes/Notes.tex", lit "text")] (lit "out") in
  let r := {| exec_err := None; exec_stdout := lit "ok"; exec_stderr := [] |} in
  let p := onConverted DEFAULT_SETTINGS (lit "/v") (lit "Notes")
             (lit "/v/.md2overleaf/Notes") r in
  (exists tr0 ev, trace readonlyWorld p w = tr0 ++ [ev] /\ failedb ev = true) /\
  notices (trace readonlyWorld p w) = [lit "Conversion complete. Preparing ZIP..."] /\
  exec_results (trace readonlyWorld p w) = [].
Proof.
  intros P w r p.
  apply (@X14_failure_is_silent P DEFAULT_SETTINGS (lit "/v") (lit "Notes")
           (lit "/v/.md2overleaf/Notes") r readonlyWorld w erofs).
  vm_compute. reflexivity.
Defined.

(** ** The drawings read *)

Lemma reads_app (a b : list event) : reads (a ++ b) = reads a ++ reads b.
Proof.
  induction a as [|[X e x] a IH]; simpl; [reflexivity|].
  destruct e; simpl; rewrite IH; reflexivity.
Qed.

Section DrawingsRead.
Context {P : PathApi}.
Variables vaultPath outDir stageRoot : str.
Variable W : World.

Lemma exporter_reads (mdAbs : str) (s : St W) :
  reads (trace W (exportTldrawMdToPng vaultPath outDir stageRoot mdAbs) s) = [mdAbs].
Proof.
  unfold trace, exportTldrawMdToPng.
  cbn [catch Exc_prog bind ret Monad_prog].
  rewrite run_try_catch, run_bind, run_call.
  destruct (handle W (ReadFile mdAbs) s) as [[e|src] s1]; cbn [fst snd].
  { rewrite run_bind, run_emit. reflexivity. }
  destruct (js_match reTldrawFence src) as [m|]; [|reflexivity].
  rewrite run_bind, run_call.
  destruct (handle W (EnsureDir _) s1) as [[e|[]] s2]; cbn [fst snd].
  { rewrite run_bind, run_emit. reflexivity. }
  rewrite run_bind, run_call.
  destruct (handle W (WriteFile _ _) s2) as [[e|[]] s3]; cbn [fst snd].
  { rewrite run_bind, run_emit. reflexivity. }
  rewrite run_bind, run_call.
  destruct (handle W (Spawn _ _) s3) as [[e|[]] s4]; cbn [fst snd].
  { rewrite run_bind, run_emit. reflexivity. }
  rewrite run_bind, run_call.
  destruct (handle W (Remove _) s4) as [[e|[]] s5]; cbn [fst snd].
  { rewrite run_bind, run_emit. reflexivity. }
  reflexivity.
Qed.

Lemma tldrawStep_reads (m : jsmatch) (tex : str) (s : St W) :
  reads (trace W (tldrawStep vaultPath outDir stageRoot m tex) s) =
  [path_join [vaultPath; trim (group1 m)]].
Proof.
  pose proof (exporter_reads (path_join [vaultPath; trim (group1 m)]) s) as H.
  unfold trace, tldrawStep in *. cbn [bind Monad_prog]. rewrite run_bind.
  destruct (@no_throw_run _ W _
              (exporter_no_throw vaultPath outDir stageRoot
                 (path_join [vaultPath; trim (group1 m)])) s)
    as (o & s' & tr & E).
  rewrite E in *. cbn [snd] in H.
  destruct (exportedOk o); simpl; rewrite app_nil_r; exact H.
Qed.

(** X15. The loop over the placeholders reads one drawing document per
    placeholder found in the text as it is when the loop starts, in the
    order of the text, and reads nothing else: the document of a
    placeholder is [<vault>/<its trimmed path>], it is read again when
    the same drawing is named twice, and whether an export succeeds or
    fails does not change what is read next. *)
Theorem X15_one_read_per_placeholder (tex : str) (s : St W) :
  reads (trace W (replaceTldraw vaultPath outDir stageRoot tex) s) =
  map (fun m => path_join [vaultPath; trim (group1 m)])
      (matchAll reTldrawEscaped tex).
Proof.
  unfold replaceTldraw. generalize (matchAll reTldrawEscaped tex) as ms.
  intros ms. revert s. generalize tex as t.
  induction ms as [|m ms IH]; intros t s; [reflexivity|].
  pose proof (tldrawStep_reads m t s) as Hm.
  unfold trace in *. cbn [for_fold map]. rewrite run_bind.
  destruct (run_tldrawStep vaultPath outDir stageRoot W m t s) as (o & s1 & tr1 & E).
  rewrite E in *. cbn [snd] in Hm.
  specialize (IH (applyTldraw t (m, o)) s1).
  destruct (run W (for_fold ms (tldrawStep vaultPath outDir stageRoot)
                     (applyTldraw t (m, o))) s1) as [[r s2] tr2].
  cbn [snd] in *. rewrite reads_app, Hm, IH. reflexivity.
Qed.

End DrawingsRead.
